(** * perf: the benchmark-suite collection of [perf/__main__.py]

    A shallow embedding of the [Benchmarks] class (loading, name-based
    inclusion, the cross-suite iterator, grouping by name), of
    [format_filename_func], [cmd_compare], [_display_common_metadata] and
    the [--update-metadata] argument of [cmd_convert], and of the Turbo
    Boost operations and [System.main] of [perf/_system.py], followed by
    the properties of the specification that concern them and by further
    properties of the code.

    Python sets of strings are [gset string]; lists are lists; a method
    that can raise returns in [result]; code that mutates the collection,
    prints or exits runs in the monad [M] over an explicit [state]. *)

From Stdlib Require Import ZArith Ascii String.
From stdpp Require Import base option list sorting gmap sets strings pretty.

Local Open Scope string_scope.
#[local] Set Warnings "-clear-no-such-hyp".

(** ** Data model *)

(** Modelled from the spec: [perf.Run], which is not among the sources.  A
    run is its samples; no property below computes with them, they only
    tell benchmarks apart. *)
Record Run := { get_samples : list Z }.

(** Modelled from the spec: [perf.Benchmark], which is not among the sources.
    [get_name] is [None] for an anonymous benchmark. *)
Record Benchmark := {
  get_name : option string;
  get_runs : list Run
}.

(** Modelled from the spec: [perf.BenchmarkSuite], which is not among the
    sources.  The file the suite was loaded from and its benchmarks in
    their native order: [get_benchmarks], also what iterating over the
    suite visits and what [len] counts. *)
Record BenchmarkSuite := {
  filename : string;
  get_benchmarks : list Benchmark
}.

(** The [Benchmarks] class has a single attribute, [suites]. *)
Record Benchmarks := { suites : list BenchmarkSuite }.

#[global] Instance Run_eq_dec : EqDecision Run.
Proof. solve_decision. Defined.
#[global] Instance Benchmark_eq_dec : EqDecision Benchmark.
Proof. solve_decision. Defined.
#[global] Instance BenchmarkSuite_eq_dec : EqDecision BenchmarkSuite.
Proof. solve_decision. Defined.

Record DataItem := {
  di_suite : BenchmarkSuite;
  di_filename : string;
  di_benchmark : Benchmark;
  di_name : string;
  di_title : option string;
  di_is_last : bool
}.

Record GroupItem := {
  gi_benchmark : Benchmark;
  gi_title : option string;
  gi_filename : string
}.

Record GroupItem2 := {
  g2_name : string;
  g2_benchmarks : list GroupItem;
  g2_is_last : bool
}.

Record IterSuite := { is_filename : string; is_suite : BenchmarkSuite }.

(** ** Exceptions and results *)

Inductive exn :=
  | IndexError
  | KeyError (name : string)
  | LoadError (source : string)
  | SystemExit (code : Z).

Definition result (A : Type) : Type := exn + A.

Definition Ok {A} (a : A) : result A := inr a.
Definition Raise {A} (e : exn) : result A := inl e.

Definition rbind {A B} (r : result A) (k : A → result B) : result B :=
  match r with
  | inl e => inl e
  | inr a => k a
  end.

Notation "'let?' x ':=' r 'in' k" := (rbind r (λ x, k))
  (at level 10, x name, r at level 100, k at level 200).

(** Running a list of computations from left to right, up to the first
    exception. *)
Fixpoint rsequence {A} (l : list (result A)) : result (list A) :=
  match l with
  | [] => Ok []
  | r :: l' =>
      let? a := r in
      let? l'' := rsequence l' in
      Ok (a :: l'')
  end.

(** ** [os.path] (posixpath) *)

Module posixpath.

(** [p.rfind(c)]: the index of the last occurrence of [c], -1 without one. *)
Fixpoint rfind (c : ascii) (p : string) : Z :=
  match p with
  | EmptyString => (-1)%Z
  | String a r =>
      let i := rfind c r in
      if decide (0 ≤ i)%Z then (i + 1)%Z
      else if decide (a = c) then 0%Z else (-1)%Z
  end.

(** [p[i:]] and [p[:i]] for an index [0 <= i]. *)
Fixpoint slice_from (i : nat) (p : string) : string :=
  match i, p with
  | O, _ => p
  | S _, EmptyString => EmptyString
  | S i', String _ r => slice_from i' r
  end.

Fixpoint slice_to (i : nat) (p : string) : string :=
  match i, p with
  | O, _ => EmptyString
  | S _, EmptyString => EmptyString
  | S i', String a r => String a (slice_to i' r)
  end.

(** [i = p.rfind('/') + 1; return p[i:]] *)
Definition basename (p : string) : string :=
  let i := (rfind "/" p + 1)%Z in
  slice_from (Z.to_nat i) p.

(** The [while filenameIndex < dotIndex] loop of [_splitext]: is there a
    character other than the dot among the [n] characters from
    [filenameIndex] on? *)
Fixpoint has_non_dot (p : string) (filenameIndex n : nat) : bool :=
  match n with
  | O => false
  | S n' =>
      if decide (String.get filenameIndex p = Some "."%char)
      then has_non_dot p (S filenameIndex) n'
      else true
  end.

(** [splitext]: the extension starts at the last dot of the last path
    component, leading dots of that component apart. *)
Definition splitext (p : string) : string * string :=
  let sepIndex := rfind "/" p in
  let dotIndex := rfind "." p in
  if decide (sepIndex < dotIndex)%Z then
    let filenameIndex := (sepIndex + 1)%Z in
    if has_non_dot p (Z.to_nat filenameIndex) (Z.to_nat (dotIndex - filenameIndex))
    then (slice_to (Z.to_nat dotIndex) p, slice_from (Z.to_nat dotIndex) p)
    else (p, EmptyString)
  else (p, EmptyString).

End posixpath.

(** ** [format_filename_func] *)

Definition format_filename_func (suites : list BenchmarkSuite) : string → string :=
  let filenames := filename <$> suites in
  let base_filenames : gset string :=
    list_to_set (posixpath.basename <$> filenames) in
  if decide (size base_filenames ≠ length filenames) then
    λ filename, filename
  else
    let noext_filenames : gset string :=
      set_map (λ filename, (posixpath.splitext filename).1) base_filenames in
    if decide (size noext_filenames ≠ size base_filenames) then
      posixpath.basename
    else
      λ filename, (posixpath.splitext (posixpath.basename filename)).1.

(** The stem of a basename: one extension removed. *)
Definition stem (filename : string) : string := (posixpath.splitext filename).1.

(** No two loaded suites, at different positions, have the same basename. *)
Definition distinct_basenames (suites : list BenchmarkSuite) : Prop :=
  ∀ i j s1 s2, suites !! i = Some s1 → suites !! j = Some s2 →
    posixpath.basename (filename s1) = posixpath.basename (filename s2) → i = j.

(** ** Methods of [perf.BenchmarkSuite] and builtins used by the class *)

(** Modelled from the spec: [BenchmarkSuite.get_benchmark], of [perf._bench],
    which is not among the sources.  It returns the benchmark of the suite
    matching [name] and raises [KeyError] when there is none. *)
Definition get_benchmark (suite : BenchmarkSuite) (name : string) : result Benchmark :=
  match filter (λ bench, get_name bench = Some name) (get_benchmarks suite) with
  | bench :: _ => Ok bench
  | [] => Raise (KeyError name)
  end.

(** Modelled from the spec: [BenchmarkSuite._convert_include_benchmark], of
    [perf._bench], which is not among the sources.  It retains only the
    benchmark matching [name] and raises [KeyError], leaving the suite as it
    is, when [name] is absent from the suite. *)
Definition _convert_include_benchmark (suite : BenchmarkSuite) (name : string)
    : result BenchmarkSuite :=
  match filter (λ bench, get_name bench = Some name) (get_benchmarks suite) with
  | [] => Raise (KeyError name)
  | benchmarks => Ok {| filename := filename suite; get_benchmarks := benchmarks |}
  end.

(** [sorted(names)] on a set of strings: ascending, code point by code point. *)
Definition sorted (names : gset string) : list string :=
  merge_sort String.le (elements names).

(** [name not in names], where [name] may be [None]. *)
Definition not_in (name : option string) (names : gset string) : bool :=
  match name with
  | None => true
  | Some n => bool_decide (n ∉ names)
  end.

(** ** The [Benchmarks] class *)

Definition get_nsuite (self : Benchmarks) : nat := length (suites self).

(** [__len__]: [sum(len(suite) for suite in self.suites)] *)
Definition __len__ (self : Benchmarks) : nat :=
  foldr (λ suite acc, length (get_benchmarks suite) + acc) 0 (suites self).

Definition iter_suites (self : Benchmarks) : list IterSuite :=
  let format_filename := format_filename_func (suites self) in
  (λ suite, {| is_filename := format_filename (filename suite); is_suite := suite |})
    <$> suites self.

Section iter.
(** [get_benchmark_name] is imported from [perf._cli], which is not among
    the sources: the display name of a benchmark, kept abstract. *)
Variable get_benchmark_name : Benchmark → string.

(** [__iter__]: the generator as the list of the items it yields. *)
Definition __iter__ (self : Benchmarks) : list DataItem :=
  let format_filename := format_filename_func (suites self) in
  let show_name := bool_decide (1 < __len__ self) in
  let show_filename := bool_decide (1 < get_nsuite self) in
  mjoin (imap (λ suite_index suite,
    let filename := format_filename (filename suite) in
    let last_suite :=
      bool_decide (Z.of_nat suite_index = Z.of_nat (length (suites self)) - 1)%Z in
    let benchmarks := get_benchmarks suite in
    imap (λ bench_index benchmark,
      let name := get_benchmark_name benchmark in
      let title :=
        if show_name then
          let title := name in
          Some (if show_filename then filename +:+ ":" +:+ title else title)
        else None in
      let last_benchmark :=
        bool_decide (Z.of_nat bench_index = Z.of_nat (length benchmarks) - 1)%Z in
      let is_last := last_suite && last_benchmark in
      {| di_suite := suite; di_filename := filename; di_benchmark := benchmark;
         di_name := name; di_title := title; di_is_last := is_last |})
      benchmarks) (suites self)).
End iter.

Definition suite_to_name_set (suite : BenchmarkSuite) : gset string :=
  foldl (λ result bench,
           match get_name bench with
           | Some name => if decide (name = EmptyString) then result else result ∪ {[ name ]}
           | None => result
           end) ∅ (get_benchmarks suite).

(** [self.suites[0]] raises [IndexError] on an empty collection. *)
Definition _group_by_name_names (self : Benchmarks) : result (gset string) :=
  match suites self with
  | [] => Raise IndexError
  | suite0 :: rest =>
      Ok (foldl (λ names suite, names ∩ suite_to_name_set suite)
                (suite_to_name_set suite0) rest)
  end.

Definition group_by_name (self : Benchmarks) : result (list GroupItem2) :=
  let format_filename := format_filename_func (suites self) in
  let show_filename := bool_decide (1 < get_nsuite self) in
  let? names := _group_by_name_names self in
  let names := sorted names in
  let show_name := bool_decide (1 < length names) in
  rsequence (imap (λ index name,
    let? benchmarks := rsequence ((λ suite,
      let? benchmark := get_benchmark suite name in
      let filename := format_filename (filename suite) in
      let title :=
        if show_name then
          if negb show_filename then Some name else Some filename
        else None in
      Ok {| gi_benchmark := benchmark; gi_title := title; gi_filename := filename |})
      <$> suites self) in
    let is_last := bool_decide (Z.of_nat index = Z.of_nat (length names) - 1)%Z in
    Ok {| g2_name := name; g2_benchmarks := benchmarks; g2_is_last := is_last |})
    names).

(** The benchmarks of one suite that [group_by_name_ignored] collects. *)
Definition ignored_of (names : gset string) (suite : BenchmarkSuite) : list Benchmark :=
  foldl (λ ignored bench,
           if not_in (get_name bench) names then (ignored ++ [bench])%list else ignored)
        [] (get_benchmarks suite).

(** [group_by_name_ignored]: the generator as the list of the pairs it
    yields; the names are computed when the generator starts. *)
Definition group_by_name_ignored (self : Benchmarks)
    : result (list (BenchmarkSuite * list Benchmark)) :=
  let? names := _group_by_name_names self in
  Ok (suites self ≫= λ suite,
        let ignored := ignored_of names suite in
        match ignored with
        | [] => []
        | _ => [(suite, ignored)]
        end).

(** ** Effects: mutation of the collection, output, exit *)

Inductive event :=
  | Stdout (line : string)
  | Stderr (line : string)
  | CallCompareSuites (data : Benchmarks) (ranked by_speed : bool).

(** The collection a command works on and what the command has done so far. *)
Record state := { st_self : Benchmarks; st_events : list event }.

Definition M (A : Type) : Type := state → state * result A.

#[global] Instance M_ret : MRet M := λ A a st, (st, Ok a).
#[global] Instance M_bind : MBind M := λ A B k m st,
  match m st with
  | (st', inl e) => (st', inl e)
  | (st', inr a) => k a st'
  end.

Definition raise {A} (e : exn) : M A := λ st, (st, Raise e).
Definition lift {A} (r : result A) : M A := λ st, (st, r).
Definition get_self : M Benchmarks := λ st, (st, Ok (st_self st)).
Definition put_self (self : Benchmarks) : M unit :=
  λ st, ({| st_self := self; st_events := st_events st |}, Ok tt).
Definition emit (e : event) : M unit :=
  λ st, ({| st_self := st_self st; st_events := st_events st ++ [e] |}, Ok tt).

(** [sys.exit(code)] raises [SystemExit]. *)
Definition sys_exit {A} (code : Z) : M A := raise (SystemExit code).

(** The arguments the commands read; [args_group_by_speed] exists for the
    [compare_to] action only and is read under that action only. *)
Record Namespace := {
  args_action : string;
  args_name : option string;
  args_filenames : list string;
  args_group_by_speed : bool
}.

(** [suite._convert_include_benchmark(name)] on the suite at position [index]
    of [self.suites]: the suite object is changed in place. *)
Definition set_suite (index : nat) (suite : BenchmarkSuite) : M unit :=
  self ← get_self;
  put_self {| suites := <[index := suite]> (suites self) |}.

(** [perf._compare.compare_suites] is not among the sources: a call to it
    is recorded as an event. *)
Definition compare_suites (data : Benchmarks) (ranked by_speed : bool) : M unit :=
  emit (CallCompareSuites data ranked by_speed).

Section commands.
(** [perf.BenchmarkSuite.load], of the storage layer, and the builtin
    [repr] behind [%r] are kept abstract. *)
Variable BenchmarkSuite_load : string → result BenchmarkSuite.
Variable repr : string → string.

Definition fatal_missing_benchmark {A} (suite : BenchmarkSuite) (name : string) : M A :=
  emit (Stderr ("ERROR: The benchmark suite " +:+ filename suite
                +:+ " doesn't contain a benchmark called " +:+ repr name));;
  sys_exit 1.

Definition load_benchmark_suite (filename : string) : M unit :=
  suite ← lift (BenchmarkSuite_load filename);
  self ← get_self;
  put_self {| suites := (suites self ++ [suite])%list |}.

Fixpoint load_benchmark_suites (filenames : list string) : M unit :=
  match filenames with
  | [] => mret tt
  | filename :: filenames' =>
      load_benchmark_suite filename;;
      load_benchmark_suites filenames'
  end.

(** The loop of [include_benchmark], at the suite of position [index]. *)
Fixpoint include_benchmark_from (name : string) (index : nat)
    (todo : list BenchmarkSuite) : M unit :=
  match todo with
  | [] => mret tt
  | suite :: todo' =>
      match _convert_include_benchmark suite name with
      | inr suite' =>
          set_suite index suite';;
          include_benchmark_from name (S index) todo'
      | inl (KeyError _) => fatal_missing_benchmark suite name
      | inl e => raise e
      end
  end.

Definition include_benchmark (name : string) : M unit :=
  self ← get_self;
  include_benchmark_from name 0 (suites self).

(** [data = Benchmarks()], then the loading and the optional narrowing. *)
Definition load_benchmarks (args : Namespace) : M unit :=
  put_self {| suites := [] |};;
  load_benchmark_suites (args_filenames args);;
  match args_name args with
  | Some name => if decide (name = EmptyString) then mret tt else include_benchmark name
  | None => mret tt
  end.

Definition cmd_compare (args : Namespace) : M unit :=
  load_benchmarks args;;
  data ← get_self;
  (if decide (get_nsuite data < 2)%nat then
     emit (Stdout "ERROR: need at least two benchmark files");;
     sys_exit 1
   else mret tt);;
  let by_speed :=
    if decide (args_action args = "compare_to") then args_group_by_speed args
    else false in
  (if by_speed && bool_decide (get_nsuite data ≠ 2) then
     emit (Stderr "ERROR: by_speed only works on two benchmark files");;
     sys_exit 1
   else mret tt);;
  compare_suites data (bool_decide (args_action args = "compare")) by_speed.
End commands.

(** ** Vocabulary of the properties *)

(** A benchmark of [suite] is called [x], a name that is not empty. *)
Definition has_name (suite : BenchmarkSuite) (x : string) : Prop :=
  x ≠ EmptyString ∧ ∃ bench, bench ∈ get_benchmarks suite ∧ get_name bench = Some x.

(** What [group_by_name] puts in a group for one suite. *)
Definition member_of (self : Benchmarks) (names : gset string) (name : string)
    (suite : BenchmarkSuite) (item : GroupItem) : Prop :=
  get_benchmark suite name = Ok (gi_benchmark item)
  ∧ gi_filename item = format_filename_func (suites self) (filename suite)
  ∧ gi_title item =
      if bool_decide (1 < size names)%nat then
        if bool_decide (1 < get_nsuite self)%nat
        then Some (format_filename_func (suites self) (filename suite))
        else Some name
      else None.

(** The name of [bench] is one of [names]. *)
Definition is_common (names : gset string) (bench : Benchmark) : Prop :=
  ∃ n, get_name bench = Some n ∧ n ∈ names.

#[global] Instance is_common_dec names bench : Decision (is_common names bench).
Proof.
  unfold is_common. destruct (get_name bench) as [n|].
  - destruct (decide (n ∈ names)); [left; eauto|right; naive_solver].
  - right. naive_solver.
Defined.

(** The benchmarks of a suite whose name is not, and is, a common name. *)
Definition ignored_benchmarks (names : gset string) (suite : BenchmarkSuite) : list Benchmark :=
  filter (λ bench, ¬ is_common names bench) (get_benchmarks suite).

Definition common_benchmarks (names : gset string) (suite : BenchmarkSuite) : list Benchmark :=
  filter (is_common names) (get_benchmarks suite).

(** No benchmark of [suite] is called [name]. *)
Definition lacks (suite : BenchmarkSuite) (name : string) : Prop :=
  Forall (λ bench, get_name bench ≠ Some name) (get_benchmarks suite).

(** [suite] with the benchmarks called [name] only. *)
Definition narrowed (name : string) (suite : BenchmarkSuite) : BenchmarkSuite :=
  {| filename := filename suite;
     get_benchmarks := filter (λ bench, get_name bench = Some name) (get_benchmarks suite) |}.

Definition missing_benchmark_message (repr : string → string)
    (suite : BenchmarkSuite) (name : string) : string :=
  "ERROR: The benchmark suite " +:+ filename suite
  +:+ " doesn't contain a benchmark called " +:+ repr name.

(** A call to [compare_suites]. *)
Definition is_call (e : event) : Prop :=
  match e with
  | CallCompareSuites _ _ _ => True
  | _ => False
  end.

(** [st] with one more event. *)
Definition with_event (st : state) (e : event) : state :=
  {| st_self := st_self st; st_events := st_events st ++ [e] |}.

(** The items [__iter__] yields for the suite at position [suite_index]. *)
Definition iter_items (get_benchmark_name : Benchmark → string) (self : Benchmarks)
    (suite_index : nat) (suite : BenchmarkSuite) : list DataItem :=
  let label := format_filename_func (suites self) (filename suite) in
  imap (λ bench_index benchmark,
    let name := get_benchmark_name benchmark in
    {| di_suite := suite; di_filename := label; di_benchmark := benchmark;
       di_name := name;
       di_title :=
         if bool_decide (1 < __len__ self)%nat then
           Some (if bool_decide (1 < get_nsuite self)%nat
                 then label +:+ ":" +:+ name else name)
         else None;
       di_is_last :=
         bool_decide (Z.of_nat suite_index = Z.of_nat (length (suites self)) - 1)%Z
         && bool_decide (Z.of_nat bench_index
                         = Z.of_nat (length (get_benchmarks suite)) - 1)%Z |})
    (get_benchmarks suite).

(** ** Sample collections *)

Definition mk_suite (f : string) (names : list (option string)) : BenchmarkSuite :=
  {| filename := f;
     get_benchmarks := (λ n, {| get_name := n; get_runs := [] |}) <$> names |}.

Definition data_ex : Benchmarks :=
  {| suites := [mk_suite "a/py2.json" [Some "telco"; Some "go"; None; Some "nbody"];
                mk_suite "b/py3.json" [Some "nbody"; Some EmptyString; Some "telco"]] |}.

Definition get_benchmark_name_ex (bench : Benchmark) : string :=
  default "<anonymous>" (get_name bench).

Definition repr_ex (s : string) : string := "'" +:+ s +:+ "'".

Definition load_ex (source : string) : result BenchmarkSuite :=
  Ok (mk_suite source [Some "telco"]).

Definition labels_ex : list BenchmarkSuite :=
  [mk_suite "a/x.json" []; mk_suite "b/y.json" []].

Definition single_ex : Benchmarks :=
  {| suites := [mk_suite "bench.json" [Some "telco"]] |}.

(** The item [__iter__] yields on [single_ex]. *)
Definition single_item_ex : DataItem :=
  {| di_suite := mk_suite "bench.json" [Some "telco"]; di_filename := "bench";
     di_benchmark := {| get_name := Some "telco"; get_runs := [] |};
     di_name := "telco"; di_title := None; di_is_last := true |}.

Definition narrowing_ex : state :=
  {| st_self := {| suites := [mk_suite "a.json" [Some "telco"; Some "nbody"];
                              mk_suite "b.json" [Some "nbody"]] |};
     st_events := [] |}.

Definition compare_args_ex : Namespace :=
  {| args_action := "compare"; args_name := None;
     args_filenames := ["a.json"]; args_group_by_speed := false |}.

Definition start_ex : state := {| st_self := {| suites := [] |}; st_events := [] |}.

(** ** Common metadata of the displayed benchmarks *)

Section metadata.
(** The values of metadata (strings and numbers) are not inspected here. *)
Context {Value : Type}.

(** [perf._metadata._common_metadata] is not among the sources: it is kept
    abstract, a function that builds a mapping of its own from the
    mappings it is given. *)
Variable _common_metadata : list (gmap string Value) → gmap string Value.

(** What [_display_common_metadata] shows: a call to [display_metadata] with
    its header, or the empty line of [print()]. *)
Inductive display_event :=
  | DisplayMetadata (metadata : gmap string Value) (header : string)
  | PrintEmptyLine.

(** [for metadata in metadatas: metadata.pop(key, None)] *)
Definition pop_all (key : string) (metadatas : list (gmap string Value))
    : list (gmap string Value) :=
  delete key <$> metadatas.

(** The dictionaries of [metadatas] are changed in place: the function is
    given their contents and returns their contents afterwards, with what
    was displayed.  The keys of [common_metadata] are visited in the order
    of [elements]; the order has no influence on the result. *)
Definition _display_common_metadata (metadatas : list (gmap string Value))
    : list (gmap string Value) * list display_event :=
  if decide (length metadatas < 2)%nat then (metadatas, [])
  else
    let metadatas := pop_all "name" metadatas in
    let common_metadata := _common_metadata metadatas in
    let shown :=
      if decide (common_metadata = ∅) then []
      else [DisplayMetadata common_metadata "Common metadata:"; PrintEmptyLine] in
    let metadatas :=
      foldl (λ metadatas key, pop_all key metadatas) metadatas
            (elements (dom common_metadata)) in
    (metadatas, shown).
End metadata.

(** ** The [--update-metadata] argument of [cmd_convert] *)

Section update_metadata.
(** The white space of [str.strip()], kept abstract. *)
Variable isspace : ascii → bool.

Fixpoint lstrip (s : string) : string :=
  match s with
  | EmptyString => EmptyString
  | String c r => if isspace c then lstrip r else s
  end.

Fixpoint rstrip (s : string) : string :=
  match s with
  | EmptyString => EmptyString
  | String c r =>
      match rstrip r with
      | EmptyString => if isspace c then EmptyString else String c EmptyString
      | r' => String c r'
      end
  end.

(** [s.strip()] *)
Definition strip (s : string) : string := rstrip (lstrip s).

(** [s.split(sep)] for a separator of one character: the pieces between the
    separators, one piece more than there are separators. *)
Fixpoint split (sep : ascii) (s : string) : list string :=
  match s with
  | EmptyString => [EmptyString]
  | String c r =>
      if decide (c = sep) then EmptyString :: split sep r
      else match split sep r with
           | piece :: pieces => String c piece :: pieces
           | [] => [String c EmptyString]
           end
  end.

(** [s.partition(sep)] for a separator of one character: what precedes the
    first separator, the separator, what follows it; [(s, '', '')] when
    [s] has no separator. *)
Fixpoint partition (sep : ascii) (s : string) : string * string * string :=
  match s with
  | EmptyString => (EmptyString, EmptyString, EmptyString)
  | String c r =>
      if decide (c = sep) then (EmptyString, String sep EmptyString, r)
      else let '(head, found, tail) := partition sep r in (String c head, found, tail)
  end.

(** The dictionary [cmd_convert] builds from [args.update_metadata], a
    comma-separated list of [KEY=VALUE], before it updates the benchmarks
    with it. *)
Definition update_metadata_of (update_metadata : string) : gmap string string :=
  let items := strip <$> split "," update_metadata in
  foldl (λ metadata item,
           if decide (item = EmptyString) then metadata
           else
             let '(key, _, value) := partition "=" item in
             <[key := value]> metadata)
        ∅ items.
End update_metadata.

(** [c] is one of the characters of [s]. *)
Fixpoint occurs (c : ascii) (s : string) : Prop :=
  match s with
  | EmptyString => False
  | String a r => a = c ∨ occurs c r
  end.

(** The white space of ASCII, for the examples. *)
Definition isspace_ex (c : ascii) : bool :=
  bool_decide (c = " "%char) || bool_decide (c = "009"%char) || bool_decide (c = "010"%char).

(** ** [perf/_system.py]: Turbo Boost and the report of the system *)

Module system.

Definition MSR_IA32_MISC_ENABLE : Z := 0x1a0.
Definition MSR_IA32_MISC_ENABLE_TURBO_DISABLE_BIT : Z := 38.

(** [errno.ENOENT], [errno.EPERM] and [errno.EACCES]. *)
Definition ENOENT : Z := 2.
Definition EPERM : Z := 1.
Definition EACCES : Z := 13.

Inductive sys_exn :=
  | OSError (errno : Z)
  | ValueError
  | Exit (code : Z).

(** What the module asks of the machine and of the functions it imports,
    none of them among the sources.  A process or a file operation takes
    the machine to a new state; an [inl] result is the [errno] of the
    [OSError] or [IOError] raised. *)
Record os (World : Type) := {
  (** [subprocess.Popen(cmd)] then [proc.wait()]: the return code *)
  Popen_wait : list string → World → World * (Z + Z);
  (** [subprocess.Popen(cmd, stdout=PIPE)] then [communicate()]: the
      return code and the output *)
  Popen_communicate : list string → World → World * (Z + Z * string);
  getuid : World → Z;
  (** [open(path, 'w')] and [fp.write(content)]: the [errno] and the text
      of the [IOError], if any *)
  write_file : string → string → World → World * option (Z * string);
  (** [perf._utils]: [read_first_line], [get_logical_cpu_count], [sysfs_path] *)
  read_first_line : string → World → World * string;
  get_logical_cpu_count : World → World * option Z;
  sysfs_path : string → string;
  (** builtins: ['%s' % n], ['%#x' % n], [int(s, 16)] ([None] for
      [ValueError]), [repr] of a string, the white space of [rstrip()] *)
  fmt_int : Z → string;
  fmt_hex : Z → string;
  int16 : string → option Z;
  repr_str : string → string;
  isspace : ascii → bool
}.

Arguments Popen_wait {World}.
Arguments Popen_communicate {World}.
Arguments getuid {World}.
Arguments write_file {World}.
Arguments read_first_line {World}.
Arguments get_logical_cpu_count {World}.
Arguments sysfs_path {World}.
Arguments fmt_int {World}.
Arguments fmt_hex {World}.
Arguments int16 {World}.
Arguments repr_str {World}.
Arguments isspace {World}.

(** The machine, the attributes of [System] ([errors], [has_messages]), what
    was printed, and the attributes of the two Turbo Boost operations:
    [cpu_states] of [TurboBoostMSR], [enabled] of [TurboBoostIntelPstate]. *)
Record system_state (World : Type) := {
  world : World;
  errors : list string;
  has_messages : bool;
  stdout : list string;
  cpu_states : gmap Z bool;
  pstate_enabled : option bool
}.

Arguments world {World}.
Arguments errors {World}.
Arguments has_messages {World}.
Arguments stdout {World}.
Arguments cpu_states {World}.
Arguments pstate_enabled {World}.

Section system.
Context {World : Type}.
Variable env : os World.

Definition SM (A : Type) : Type :=
  system_state World → system_state World * (sys_exn + A).

Definition sret {A} (a : A) : SM A := λ st, (st, inr a).
Definition sraise {A} (e : sys_exn) : SM A := λ st, (st, inl e).
Definition sbind {A B} (m : SM A) (k : A → SM B) : SM B := λ st,
  match m st with
  | (st', inl e) => (st', inl e)
  | (st', inr a) => k a st'
  end.

Notation "'let!' x ':=' m 'in' k" := (sbind m (λ x, k))
  (at level 10, x pattern, m at level 100, k at level 200).
Notation "m ';;;' k" := (sbind m (λ _, k))
  (at level 100, k at level 200, right associativity).

(** An operation of the machine on the world of the state. *)
Definition on_world {A} (f : World → World * A) : SM A := λ st,
  let '(w, a) := f (world st) in
  ({| world := w; errors := errors st; has_messages := has_messages st;
      stdout := stdout st; cpu_states := cpu_states st;
      pstate_enabled := pstate_enabled st |}, inr a).

Definition print (line : string) : SM unit := λ st,
  ({| world := world st; errors := errors st; has_messages := has_messages st;
      stdout := stdout st ++ [line]; cpu_states := cpu_states st;
      pstate_enabled := pstate_enabled st |}, inr tt).

(** [for x in l: body(x)] *)
Fixpoint for_each {A} (l : list A) (body : A → SM unit) : SM unit :=
  match l with
  | [] => sret tt
  | x :: l' => body x ;;; for_each l' body
  end.

Definition is_root : SM bool :=
  let! uid := on_world (λ w, (w, getuid env w)) in
  sret (bool_decide (uid = 0%Z)).

Definition run_cmd (cmd : list string) : SM Z :=
  let! proc := on_world (Popen_wait env cmd) in
  match proc with
  | inl errno => if decide (errno = ENOENT) then sret 127%Z else sraise (OSError errno)
  | inr returncode => sret returncode
  end.

Definition get_output (cmd : list string) : SM (Z * string) :=
  let! proc := on_world (Popen_communicate env cmd) in
  match proc with
  | inl errno =>
      if decide (errno = ENOENT) then sret (127%Z, EmptyString)
      else sraise (OSError errno)
  | inr (exitcode, stdout) => sret (exitcode, stdout)
  end.

(** [System.info] and [System.error] *)
Definition System_info (msg : string) : SM unit := λ st,
  ({| world := world st; errors := errors st; has_messages := true;
      stdout := stdout st ++ [msg]; cpu_states := cpu_states st;
      pstate_enabled := pstate_enabled st |}, inr tt).

Definition System_error (msg : string) : SM unit := λ st,
  ({| world := world st; errors := errors st ++ [msg];
      has_messages := has_messages st; stdout := stdout st;
      cpu_states := cpu_states st; pstate_enabled := pstate_enabled st |}, inr tt).

(** [Operation.info] and [Operation.error] of the operation called [name] *)
Definition info (name msg : string) : SM unit := System_info (name +:+ ": " +:+ msg).
Definition error (name msg : string) : SM unit := System_error (name +:+ ": " +:+ msg).

Definition get_cpus : SM (list Z) :=
  let! cpu_count := on_world (get_logical_cpu_count env) in
  match cpu_count with
  | Some n =>
      if decide (n = 0%Z) then
        print "ERROR: unable to get the number of logical CPUs";;;
        sraise (Exit 1)
      else sret (seqZ 0 n)
  | None =>
      print "ERROR: unable to get the number of logical CPUs";;;
      sraise (Exit 1)
  end.

(** *** [TurboBoostMSR] *)

Definition MSR_name : string := "Turbo Boost (MSR)".

Definition read_msr (cpu reg_num : Z) (bitfield : option string) : SM (option Z) :=
  let cmd := ["rdmsr"; "-p" +:+ fmt_int env cpu; "-x"] in
  let cmd :=
    match bitfield with
    | Some b => if decide (b = EmptyString) then cmd else (cmd ++ ["-f"; b])%list
    | None => cmd
    end in
  let cmd := (cmd ++ [fmt_hex env reg_num])%list in
  let! (exitcode, stdout) := get_output cmd in
  let stdout := rstrip (isspace env) stdout in
  if bool_decide (exitcode ≠ 0%Z) || bool_decide (stdout = EmptyString) then
    let msg := "Failed to read MSR " +:+ fmt_hex env reg_num +:+ " of CPU "
               +:+ fmt_int env cpu +:+ " (exit code " +:+ fmt_int env exitcode
               +:+ "). Is rdmsr tool installed?" in
    let! root := is_root in
    let msg := if root then msg else msg +:+ " Retry as root?" in
    error MSR_name msg;;;
    sret None
  else
    match int16 env stdout with
    | Some value => sret (Some value)
    | None => sraise ValueError
    end.

Definition set_cpu_state (cpu : Z) (state : bool) : SM unit := λ st,
  ({| world := world st; errors := errors st; has_messages := has_messages st;
      stdout := stdout st; cpu_states := <[cpu := state]> (cpu_states st);
      pstate_enabled := pstate_enabled st |}, inr tt).

Definition read_cpu (cpu : Z) : SM unit :=
  let bit := MSR_IA32_MISC_ENABLE_TURBO_DISABLE_BIT in
  let! msr := read_msr cpu MSR_IA32_MISC_ENABLE
                (Some (fmt_int env bit +:+ ":" +:+ fmt_int env bit)) in
  match msr with
  | None => sret tt
  | Some msr =>
      if decide (msr = 0%Z) then set_cpu_state cpu true
      else if decide (msr = 1%Z) then set_cpu_state cpu false
      else error MSR_name ("invalid MSR bit: " +:+ fmt_hex env msr)
  end.

Definition MSR_read : SM unit :=
  let! cpus := get_cpus in
  for_each cpus read_cpu.

Definition write_msr (cpu reg_num value : Z) : SM bool :=
  let cmd := ["wrmsr"; "-p" +:+ fmt_int env cpu; fmt_hex env reg_num; fmt_hex env value] in
  let! exitcode := run_cmd cmd in
  if decide (exitcode ≠ 0%Z) then
    error MSR_name ("Failed to write " +:+ fmt_hex env value +:+ " into MSR "
                    +:+ fmt_hex env reg_num +:+ " of CPU " +:+ fmt_int env cpu);;;
    sret false
  else sret true.

Definition write_cpu (cpu : Z) (enabled : bool) : SM unit :=
  let! value := read_msr cpu MSR_IA32_MISC_ENABLE None in
  match value with
  | None => sret tt
  | Some value =>
      let mask := Z.shiftl 1 MSR_IA32_MISC_ENABLE_TURBO_DISABLE_BIT in
      let new_value :=
        if negb enabled then Z.lor value mask
        else Z.land value (Z.lnot mask) in
      if decide (new_value ≠ value) then
        let! written := write_msr cpu MSR_IA32_MISC_ENABLE new_value in
        if written then
          let state := if enabled then "enabled" else "disabled" in
          info MSR_name ("Turbo Boost " +:+ state +:+ " on CPU " +:+ fmt_int env cpu
                         +:+ ": MSR " +:+ fmt_hex env MSR_IA32_MISC_ENABLE
                         +:+ " set to " +:+ fmt_hex env new_value)
        else sret tt
      else sret tt
  end.

Definition MSR_write (enabled : bool) : SM unit :=
  let! cpus := get_cpus in
  for_each cpus (λ cpu, write_cpu cpu enabled).

Definition MSR_tune : SM unit := MSR_write false.
Definition MSR_reset : SM unit := MSR_write true.

(** *** [TurboBoostIntelPstate] *)

Definition pstate_name : string := "Turbo Boost (intel_pstate driver)".

Definition set_pstate_enabled (enabled : option bool) : SM unit := λ st,
  ({| world := world st; errors := errors st; has_messages := has_messages st;
      stdout := stdout st; cpu_states := cpu_states st;
      pstate_enabled := enabled |}, inr tt).

Definition get_pstate_enabled : SM (option bool) := λ st, (st, inr (pstate_enabled st)).

Definition no_turbo_path : string :=
  sysfs_path env "devices/system/cpu/intel_pstate/no_turbo".

Definition pstate_read : SM unit :=
  let path := no_turbo_path in
  let! no_turbo := on_world (read_first_line env path) in
  if decide (no_turbo = "1") then set_pstate_enabled (Some false)
  else if decide (no_turbo = "0") then set_pstate_enabled (Some true)
  else error pstate_name ("Invalid no_turbo value: " +:+ repr_str env no_turbo).

(** The end of [write], from the computation of [path] on. *)
Definition pstate_write_file (enabled : bool) : SM unit :=
  let path := no_turbo_path in
  let content := if enabled then "0" else "1" in
  let! failure := on_world (write_file env path content) in
  match failure with
  | None =>
      let msg := repr_str env content +:+ " written into " +:+ path in
      if enabled then info pstate_name ("Turbo Boost enabled: " +:+ msg)
      else info pstate_name ("Turbo Boost disabled: " +:+ msg)
  | Some (errno, exc) =>
      let msg := "Failed to write into " +:+ path in
      let! retry :=
        if bool_decide (errno = EPERM) || bool_decide (errno = EACCES) then
          let! root := is_root in sret (negb root)
        else sret false in
      let msg := if retry then msg +:+ " (retry as root?)" else msg in
      error pstate_name (msg +:+ ": " +:+ exc)
  end.

Definition pstate_write (enabled : bool) : SM unit :=
  let! known := get_pstate_enabled in
  match known with
  | None =>
      pstate_read;;;
      let! now := get_pstate_enabled in
      if decide (now = Some enabled) then sret tt
      else pstate_write_file enabled
  | Some _ => pstate_write_file enabled
  end.

Definition pstate_tune : SM unit := pstate_write false.
Definition pstate_reset : SM unit := pstate_write true.

Definition pstate_show : SM unit :=
  let! known := get_pstate_enabled in
  match known with
  | None => sret tt
  | Some enabled =>
      print (pstate_name +:+ ": " +:+ (if enabled then "enabled" else "disabled"))
  end.

(** *** [System.main] *)

(** The methods of an [Operation]. *)
Record Operation := {
  op_show : SM unit;
  op_read : SM unit;
  op_tune : SM unit;
  op_reset : SM unit
}.

Definition get_has_messages : SM bool := λ st, (st, inr (has_messages st)).
Definition get_errors : SM (list string) := λ st, (st, inr (errors st)).

Definition main (operations : list Operation) (action : string) : SM unit :=
  let tune := bool_decide (action = "tune") in
  let reset := bool_decide (action = "reset") in
  for_each operations (λ operation,
    if tune then op_tune operation
    else if reset then op_reset operation
    else sret tt);;;
  for_each operations op_read;;;
  (let! messages := get_has_messages in
   if messages then print EmptyString else sret tt);;;
  for_each operations op_show;;;
  let! errs := get_errors in
  match errs with
  | [] => sret tt
  | _ =>
      print EmptyString;;;
      for_each errs (λ msg, print ("ERROR: " +:+ msg))
  end.
End system.

End system.

(** A machine for the examples: its state is the content of the register
    and of the [no_turbo] file; [rdmsr] always answers ["0"], and numbers
    are written in decimal throughout. *)
Definition env_ex : system.os (Z * string) := {|
  system.Popen_wait := λ cmd w, (w, inr 0%Z);
  system.Popen_communicate := λ cmd w, (w, inr (0%Z, "0"));
  system.getuid := λ w, 0%Z;
  system.write_file := λ path content w, ((w.1, content), None);
  system.read_first_line := λ path w, (w, w.2);
  system.get_logical_cpu_count := λ w, (w, Some 2%Z);
  system.sysfs_path := λ path, "/sys/" +:+ path;
  system.fmt_int := λ n, pretty n;
  system.fmt_hex := λ n, "0x" +:+ pretty n;
  system.int16 := λ s, if decide (s = "0") then Some 0%Z else None;
  system.repr_str := λ s, s;
  system.isspace := λ c, bool_decide (c = " "%char)
|}.

Definition system_ex (no_turbo : string) : system.system_state (Z * string) := {|
  system.world := (0%Z, no_turbo);
  system.errors := [];
  system.has_messages := false;
  system.stdout := [];
  system.cpu_states := ∅;
  system.pstate_enabled := None
|}.

(** The machine of [env_ex] without the [rdmsr] tool. *)
Definition env_no_rdmsr_ex : system.os (Z * string) := {|
  system.Popen_wait := system.Popen_wait env_ex;
  system.Popen_communicate := λ cmd w, (w, inl system.ENOENT);
  system.getuid := system.getuid env_ex;
  system.write_file := system.write_file env_ex;
  system.read_first_line := system.read_first_line env_ex;
  system.get_logical_cpu_count := system.get_logical_cpu_count env_ex;
  system.sysfs_path := system.sysfs_path env_ex;
  system.fmt_int := system.fmt_int env_ex;
  system.fmt_hex := system.fmt_hex env_ex;
  system.int16 := system.int16 env_ex;
  system.repr_str := system.repr_str env_ex;
  system.isspace := system.isspace env_ex
|}.

(** The [TurboBoostIntelPstate] operation on [env_ex], and the same with a
    [tune] and a [reset] that do nothing. *)
Definition pstate_op_ex : system.Operation (World := Z * string) := {|
  system.op_show := system.pstate_show;
  system.op_read := system.pstate_read env_ex;
  system.op_tune := system.pstate_tune env_ex;
  system.op_reset := system.pstate_reset env_ex
|}.

Definition pstate_op_idle_ex : system.Operation (World := Z * string) := {|
  system.op_show := system.pstate_show;
  system.op_read := system.pstate_read env_ex;
  system.op_tune := system.sret tt;
  system.op_reset := system.sret tt
|}.

Definition metadatas_ex : list (gmap string nat) :=
  [{[ "name" := 1; "os" := 2; "cpu" := 3 ]}; {[ "name" := 4; "os" := 2; "cpu" := 5 ]}].

Definition common_metadata_ex (metadatas : list (gmap string nat)) : gmap string nat :=
  {[ "os" := 2 ]}.

(** * Properties *)

(** ** The definitions on sample inputs *)

Example basename_ex : posixpath.basename "/tmp/run/py2.json" = "py2.json".
Proof. reflexivity. Qed.

Example splitext_ex : posixpath.splitext "/tmp/.hidden" = ("/tmp/.hidden", EmptyString).
Proof. vm_compute. reflexivity. Qed.

Example splitext_ex2 : posixpath.splitext "a/b.tar.gz" = ("a/b.tar", ".gz").
Proof. vm_compute. reflexivity. Qed.

Example fff_ex1 :
  format_filename_func [mk_suite "a/x.json" []; mk_suite "b/x.json" []] "a/x.json" = "a/x.json".
Proof. vm_compute. reflexivity. Qed.

Example fff_ex2 :
  format_filename_func [mk_suite "a/x.json" []; mk_suite "b/x.txt" []] "a/x.json" = "x.json".
Proof. vm_compute. reflexivity. Qed.

Example fff_ex3 :
  format_filename_func [mk_suite "a/x.json" []; mk_suite "b/y.json" []] "a/x.json" = "x".
Proof. vm_compute. reflexivity. Qed.

Example names_ex : _group_by_name_names data_ex = Ok {[ "telco"; "nbody" ]}.
Proof. vm_compute. reflexivity. Qed.

Example group_ex :
  (let? groups := group_by_name data_ex in Ok (g2_name <$> groups)) = Ok ["nbody"; "telco"].
Proof. vm_compute. reflexivity. Qed.

(** ** Counting the elements of a set built from a list *)

Section size_of_set.
Context {A : Type} `{!EqDecision A, !Countable A}.

Lemma size_list_to_set_le (l : list A) :
  (size (list_to_set (C := gset A) l) ≤ length l)%nat.
Proof.
  induction l as [|x l IH]; cbn [list_to_set length].
  - by rewrite size_empty.
  - rewrite size_union_alt, size_singleton.
    assert (list_to_set (C := gset A) l ∖ {[x]} ⊆ list_to_set l) as Hsub by set_solver.
    apply subseteq_size in Hsub. lia.
Qed.

Lemma size_list_to_set_NoDup (l : list A) :
  size (list_to_set (C := gset A) l) = length l ↔ NoDup l.
Proof.
  split; [|apply size_list_to_set].
  induction l as [|x l IH]; cbn [list_to_set length]; intros Hsize; [constructor|].
  pose proof (size_list_to_set_le l) as Hle.
  destruct (decide (x ∈ l)) as [Hin|Hnin].
  - assert ({[x]} ∪ list_to_set l = list_to_set (C := gset A) l) as Heq by set_solver.
    rewrite Heq in Hsize. lia.
  - constructor; [done|]. apply IH.
    rewrite size_union in Hsize by set_solver.
    rewrite size_singleton in Hsize. lia.
Qed.
End size_of_set.

Lemma NoDup_fmap_inj_on {A B} (f : A → B) (l : list A) x y :
  NoDup (f <$> l) → x ∈ l → y ∈ l → f x = f y → x = y.
Proof.
  induction l as [|a l IH]; simpl; [by intros _ ?%elem_of_nil|].
  intros [Hnin Hnd]%NoDup_cons [->|Hx]%elem_of_cons [->|Hy]%elem_of_cons Hf; auto.
  - exfalso. apply Hnin. rewrite Hf. by apply list_elem_of_fmap_2.
  - exfalso. apply Hnin. rewrite <- Hf. by apply list_elem_of_fmap_2.
Qed.

Section size_of_image.
Context {A B : Type} `{!EqDecision A, !Countable A, !EqDecision B, !Countable B}.

Lemma size_set_map_inj_on (f : A → B) (X : gset A) :
  size (set_map (D := gset B) f X) = size X ↔
  ∀ x y, x ∈ X → y ∈ X → f x = f y → x = y.
Proof.
  unfold set_map. unfold size at 2, set_size; simpl.
  rewrite <- (length_fmap f (elements X)), size_list_to_set_NoDup.
  split.
  - intros Hnd x y Hx%elem_of_elements Hy%elem_of_elements.
    by apply (NoDup_fmap_inj_on f (elements X)).
  - intros Hinj. apply NoDup_fmap_2_strong; [|apply NoDup_elements].
    intros x y Hx%elem_of_elements Hy%elem_of_elements. by apply Hinj.
Qed.
End size_of_image.

(** ** Display labels *)

Section labels.
Import posixpath.

Lemma distinct_basenames_NoDup suites :
  distinct_basenames suites ↔ NoDup (basename <$> (filename <$> suites)).
Proof.
  rewrite NoDup_alt. unfold distinct_basenames. split.
  - intros Hd i j x Hi Hj.
    rewrite !list_lookup_fmap in Hi, Hj.
    destruct (suites !! i) as [s1|] eqn:E1; [|done].
    destruct (suites !! j) as [s2|] eqn:E2; [|done].
    simpl in *. eapply Hd; eauto. congruence.
  - intros Hnd i j s1 s2 E1 E2 Hb.
    apply (Hnd i j (basename (filename s1))); rewrite !list_lookup_fmap.
    + by rewrite E1.
    + rewrite E2. simpl. by rewrite Hb.
Qed.

Lemma format_filename_func_full_path suites :
  ¬ distinct_basenames suites →
  ∀ f, format_filename_func suites f = f.
Proof.
  rewrite distinct_basenames_NoDup, <- size_list_to_set_NoDup.
  intros Hne f. unfold format_filename_func.
  rewrite !length_fmap in Hne. rewrite length_fmap.
  by rewrite decide_True.
Qed.

Lemma basenames_of_suites suites b :
  b ∈ list_to_set (C := gset string) (basename <$> (filename <$> suites)) ↔
  ∃ s, s ∈ suites ∧ b = basename (filename s).
Proof.
  rewrite elem_of_list_to_set, <- list_fmap_compose, list_elem_of_fmap.
  naive_solver.
Qed.

Lemma format_filename_func_cases suites :
  distinct_basenames suites →
  ((∀ s1 s2, s1 ∈ suites → s2 ∈ suites →
      stem (basename (filename s1)) = stem (basename (filename s2)) →
      basename (filename s1) = basename (filename s2)) ∧
   ∀ f, format_filename_func suites f = stem (basename f))
  ∨
  ((∃ s1 s2, s1 ∈ suites ∧ s2 ∈ suites ∧
      basename (filename s1) ≠ basename (filename s2) ∧
      stem (basename (filename s1)) = stem (basename (filename s2))) ∧
   ∀ f, format_filename_func suites f = basename f).
Proof.
  intros Hd. pose proof Hd as Hsz.
  rewrite distinct_basenames_NoDup, <- size_list_to_set_NoDup in Hsz.
  unfold format_filename_func. rewrite !length_fmap in Hsz. rewrite length_fmap.
  rewrite decide_False by (intros Hne; by apply Hne).
  set (base := list_to_set (basename <$> (filename <$> suites)) : gset string).
  destruct (decide (size (set_map (D := gset string)
              (λ f, (splitext f).1) base) ≠ size base)) as [Hne|Heq].
  - right. split; [|done].
    destruct (decide (Exists (λ s1, Exists (λ s2,
        basename (filename s1) ≠ basename (filename s2) ∧
        stem (basename (filename s1)) = stem (basename (filename s2))) suites) suites))
      as [Hex|Hnex].
    + apply Exists_exists in Hex as (s1 & H1 & Hex).
      apply Exists_exists in Hex as (s2 & H2 & Hex). eauto.
    + exfalso. apply Hne. apply size_set_map_inj_on.
      intros x y (s1 & H1 & ->)%basenames_of_suites (s2 & H2 & ->)%basenames_of_suites Hst.
      destruct (decide (basename (filename s1) = basename (filename s2))) as [|Hb]; [done|].
      exfalso. apply Hnex. apply Exists_exists. exists s1. split; [done|].
      apply Exists_exists. exists s2. done.
  - left. split; [|done].
    assert (size (set_map (D := gset string) (λ f, (splitext f).1) base) = size base)
      as Hinj by (destruct (decide (size (set_map (D := gset string)
                    (λ f, (splitext f).1) base) = size base)); [done|by exfalso; apply Heq]).
    rewrite size_set_map_inj_on in Hinj.
    intros s1 s2 H1 H2 Hst. apply Hinj; [| |done]; apply basenames_of_suites; eauto.
Qed.

Lemma distinct_basenames_dec suites :
  distinct_basenames suites ∨ ¬ distinct_basenames suites.
Proof.
  rewrite distinct_basenames_NoDup.
  destruct (decide (NoDup (basename <$> (filename <$> suites)))); auto.
Qed.

(** C4.  The label function is injective on the file names of the loaded
    suites: two suites of the collection with different file names get
    different labels.  The label is the full path when two suites share
    a basename; otherwise the basename when two different basenames have
    the same stem (one extension removed); otherwise the stem. *)
Theorem format_filename_func_injective (suites : list BenchmarkSuite) :
  (∀ s1 s2, s1 ∈ suites → s2 ∈ suites → filename s1 ≠ filename s2 →
     format_filename_func suites (filename s1)
     ≠ format_filename_func suites (filename s2))
  ∧ (¬ distinct_basenames suites → ∀ f, format_filename_func suites f = f)
  ∧ (distinct_basenames suites →
     (∃ s1 s2, s1 ∈ suites ∧ s2 ∈ suites ∧
        basename (filename s1) ≠ basename (filename s2) ∧
        stem (basename (filename s1)) = stem (basename (filename s2))) →
     ∀ f, format_filename_func suites f = basename f)
  ∧ (distinct_basenames suites →
     (∀ s1 s2, s1 ∈ suites → s2 ∈ suites →
        stem (basename (filename s1)) = stem (basename (filename s2)) →
        basename (filename s1) = basename (filename s2)) →
     ∀ f, format_filename_func suites f = stem (basename f)).
Proof.
  split; [|split; [|split]].
  - intros s1 s2 H1 H2 Hne.
    destruct (distinct_basenames_dec suites) as [Hd|Hd].
    + assert (basename (filename s1) ≠ basename (filename s2)) as Hb.
      { intros Hb.
        apply list_elem_of_lookup in H1 as [i Hi], H2 as [j Hj].
        assert (i = j) as -> by (eapply Hd; eauto). congruence. }
      destruct (format_filename_func_cases suites Hd)
        as [[Hinj Hlab]|[_ Hlab]]; rewrite !Hlab; [|done].
      intros Hst. apply Hb. by apply Hinj.
    + by rewrite !(format_filename_func_full_path suites Hd).
  - apply format_filename_func_full_path.
  - intros Hd (s1 & s2 & H1 & H2 & Hb & Hst).
    destruct (format_filename_func_cases suites Hd) as [[Hinj _]|[_ Hlab]]; [|done].
    exfalso. apply Hb. by apply Hinj.
  - intros Hd Hinj.
    destruct (format_filename_func_cases suites Hd)
      as [[_ Hlab]|[(s1 & s2 & H1 & H2 & Hb & Hst) _]]; [done|].
    exfalso. apply Hb. by apply Hinj.
Qed.
End labels.

(** ** Common names *)

Lemma elem_of_name_set_from (benchmarks : list Benchmark) (acc : gset string) x :
  x ∈ foldl (λ result bench,
               match get_name bench with
               | Some name => if decide (name = EmptyString) then result else result ∪ {[ name ]}
               | None => result
               end) acc benchmarks
  ↔ x ∈ acc ∨ (x ≠ EmptyString ∧ ∃ bench, bench ∈ benchmarks ∧ get_name bench = Some x).
Proof.
  revert acc. induction benchmarks as [|bench benchmarks IH]; intros acc; simpl.
  - split; [auto|]. intros [?|(_ & b & Hb%elem_of_nil & _)]; done.
  - rewrite IH. setoid_rewrite elem_of_cons.
    destruct (get_name bench) as [name|] eqn:E; [destruct (decide (name = EmptyString))|].
    + split; [intros [?|(? & b & ? & ?)]; eauto 8|].
      intros [?|(? & b & [->|?] & Hb)]; eauto 8. congruence.
    + rewrite elem_of_union, elem_of_singleton. split.
      * intros [[?| ->]|(? & b & ? & ?)]; eauto 8.
      * intros [?|(? & b & [->|?] & Hb)]; eauto 8.
        left. right. congruence.
    + split; [intros [?|(? & b & ? & ?)]; eauto 8|].
      intros [?|(? & b & [->|?] & Hb)]; eauto 8. congruence.
Qed.

Lemma elem_of_suite_to_name_set suite x :
  x ∈ suite_to_name_set suite ↔ has_name suite x.
Proof.
  unfold suite_to_name_set, has_name. rewrite elem_of_name_set_from.
  split; [intros [Hx|Hx]|]; auto. by apply not_elem_of_empty in Hx.
Qed.

Lemma elem_of_intersect_suites (rest : list BenchmarkSuite) (names : gset string) x :
  x ∈ foldl (λ names suite, names ∩ suite_to_name_set suite) names rest
  ↔ x ∈ names ∧ ∀ suite, suite ∈ rest → has_name suite x.
Proof.
  revert names. induction rest as [|suite rest IH]; intros names; simpl.
  - split; [|tauto]. intros ?; split; [done|]. by intros ? ?%elem_of_nil.
  - rewrite IH, elem_of_intersection, elem_of_suite_to_name_set.
    setoid_rewrite elem_of_cons. naive_solver.
Qed.

Lemma group_by_name_names_Ok self names :
  _group_by_name_names self = Ok names →
  suites self ≠ [] ∧ ∀ x, x ∈ names ↔ ∀ suite, suite ∈ suites self → has_name suite x.
Proof.
  unfold _group_by_name_names. destruct (suites self) as [|suite0 rest]; [done|].
  intros [= <-]. split; [done|]. intros x.
  rewrite elem_of_intersect_suites, elem_of_suite_to_name_set.
  setoid_rewrite elem_of_cons. naive_solver.
Qed.

Lemma group_by_name_names_returns self :
  suites self ≠ [] → ∃ names, _group_by_name_names self = Ok names.
Proof.
  unfold _group_by_name_names. destruct (suites self); [done|]. eauto.
Qed.

(** C1.  With at least one suite loaded, [_group_by_name_names] returns the
    intersection of the suites' sets of non-empty benchmark names: a name
    is in the result exactly when every loaded suite has a benchmark of
    that (non-empty) name.  Loading the same suites in another order gives
    the same set. *)
Theorem group_by_name_names_intersection (self : Benchmarks) :
  suites self ≠ [] →
  ∃ names, _group_by_name_names self = Ok names
    ∧ (∀ x, x ∈ names ↔ ∀ suite, suite ∈ suites self → has_name suite x)
    ∧ (∀ suites', suites' ≡ₚ suites self →
         _group_by_name_names {| suites := suites' |} = Ok names).
Proof.
  intros Hne. destruct (group_by_name_names_returns self Hne) as [names Hnames].
  exists names. destruct (group_by_name_names_Ok _ _ Hnames) as [_ Hin].
  split; [done|]. split; [done|].
  intros suites' Hperm.
  destruct (group_by_name_names_returns {| suites := suites' |}) as [names' Hnames'].
  { simpl. intros ->. by apply Permutation_nil_l in Hperm. }
  rewrite Hnames'. f_equal.
  destruct (group_by_name_names_Ok _ _ Hnames') as [_ Hin']. simpl in Hin'.
  apply set_eq. intros x. rewrite Hin, Hin'.
  by setoid_rewrite Hperm.
Qed.

(** C9.  With no suite loaded, [_group_by_name_names] does not return a set:
    [self.suites[0]] raises [IndexError]. *)
Theorem group_by_name_names_no_suite :
  _group_by_name_names {| suites := [] |} = Raise IndexError.
Proof. reflexivity. Qed.

Lemma group_by_name_names_no_suite_not_empty :
  _group_by_name_names {| suites := [] |} ≠ Ok ∅.
Proof. discriminate. Qed.

(** ** [sorted] *)

Lemma sorted_Permutation (names : gset string) : sorted names ≡ₚ elements names.
Proof. apply merge_sort_Permutation. Qed.

Lemma elem_of_sorted (names : gset string) x : x ∈ sorted names ↔ x ∈ names.
Proof. by rewrite sorted_Permutation, elem_of_elements. Qed.

Lemma NoDup_sorted (names : gset string) : NoDup (sorted names).
Proof. rewrite sorted_Permutation. apply NoDup_elements. Qed.

Lemma length_sorted (names : gset string) : length (sorted names) = size names.
Proof. by rewrite sorted_Permutation. Qed.

Lemma StronglySorted_sorted (names : gset string) :
  StronglySorted String.le (sorted names).
Proof. apply StronglySorted_merge_sort; apply _. Qed.

Lemma StronglySorted_lookup_lt {A} (R : relation A) (l : list A) i j x y :
  StronglySorted R l → l !! i = Some x → l !! j = Some y → (i < j)%nat → R x y.
Proof.
  intros Hs. revert i j. induction Hs as [|a l Hs IH Hall]; intros i j Hi Hj Hlt.
  - by rewrite lookup_nil in Hi.
  - destruct j as [|j]; [lia|]. destruct i as [|i]; simpl in *.
    + injection Hi as ->. rewrite Forall_forall in Hall.
      apply Hall. by eapply list_elem_of_lookup_2.
    + apply (IH i j); [done|done|lia].
Qed.

(** In an ascending list without duplicates, the last position holds the
    greatest element and no other position does. *)
Lemma sorted_last_greatest (names : gset string) i x :
  sorted names !! i = Some x →
  (Z.of_nat i = Z.of_nat (length (sorted names)) - 1)%Z
  ↔ ∀ y, y ∈ names → String.le y x.
Proof.
  intros Hi. pose proof (StronglySorted_sorted names) as Hs.
  pose proof (lookup_lt_Some _ _ _ Hi) as Hlt. split.
  - intros Hlast y [j Hj]%elem_of_sorted%list_elem_of_lookup.
    pose proof (lookup_lt_Some _ _ _ Hj).
    destruct (decide (j = i)) as [->|Hne].
    + assert (y = x) as -> by congruence. reflexivity.
    + apply (StronglySorted_lookup_lt _ _ j i y x Hs Hj Hi). lia.
  - intros Hmax.
    destruct (decide (S i = length (sorted names))) as [|Hne]; [lia|].
    destruct (lookup_lt_is_Some_2 (sorted names) (S i)) as [y Hy]; [lia|].
    assert (String.le y x) as Hyx.
    { apply Hmax, elem_of_sorted. by eapply list_elem_of_lookup_2. }
    assert (String.le x y) as Hxy.
    { apply (StronglySorted_lookup_lt _ _ i (S i) x y Hs Hi Hy). lia. }
    assert (x = y) as -> by (by apply (anti_symm String.le)).
    pose proof (NoDup_sorted names) as Hnd. rewrite NoDup_alt in Hnd.
    specialize (Hnd _ _ _ Hi Hy). lia.
Qed.

(** ** [rsequence] *)

Lemma rsequence_Ok {A} (l : list (result A)) (l' : list A) :
  rsequence l = Ok l' ↔ Forall2 (λ r a, r = Ok a) l l'.
Proof.
  revert l'. induction l as [|r l IH]; intros l'; simpl.
  - split; [intros [= <-]; constructor|by intros ->%Forall2_nil_inv_l].
  - destruct r as [e|a]; simpl.
    + split; [done|]. intros (? & ? & ? & _)%Forall2_cons_inv_l. done.
    + destruct (rsequence l) as [e|l''] eqn:E; simpl.
      * split; [done|]. intros (? & k & _ & Hk & ->)%Forall2_cons_inv_l.
        by apply IH in Hk.
      * split.
        -- intros [= <-]. constructor; [done|]. by apply IH.
        -- intros (? & k & [= <-] & Hk%IH & ->)%Forall2_cons_inv_l.
           by injection Hk as ->.
Qed.

Lemma rsequence_returns {A} (l : list (result A)) :
  Forall (λ r, ∃ a, r = Ok a) l → ∃ l', rsequence l = Ok l'.
Proof.
  induction 1 as [|r l [a ->] _ [l' IH]]; simpl; [by eexists|].
  rewrite IH. by eexists.
Qed.

(** ** Grouping by name *)

Lemma get_benchmark_Ok suite name bench :
  get_benchmark suite name = Ok bench →
  bench ∈ get_benchmarks suite ∧ get_name bench = Some name.
Proof.
  unfold get_benchmark.
  destruct (filter _ _) as [|b l] eqn:E; [done|]. intros [= <-].
  assert (b ∈ filter (λ bench, get_name bench = Some name) (get_benchmarks suite)) as Hb
    by (rewrite E; left).
  apply list_elem_of_filter in Hb. tauto.
Qed.

Lemma get_benchmark_returns suite name bench :
  bench ∈ get_benchmarks suite → get_name bench = Some name →
  ∃ bench', get_benchmark suite name = Ok bench'.
Proof.
  intros Hin Hname. unfold get_benchmark.
  destruct (filter _ _) as [|b l] eqn:E; [|by eexists].
  assert (bench ∈ filter (λ bench, get_name bench = Some name) (get_benchmarks suite)) as Hb
    by (by apply list_elem_of_filter).
  rewrite E in Hb. by apply elem_of_nil in Hb.
Qed.

Lemma group_by_name_spec self names :
  _group_by_name_names self = Ok names →
  ∃ groups, group_by_name self = Ok groups
    ∧ length groups = length (sorted names)
    ∧ ∀ i name group, sorted names !! i = Some name → groups !! i = Some group →
        g2_name group = name
        ∧ g2_is_last group
          = bool_decide (Z.of_nat i = Z.of_nat (length (sorted names)) - 1)%Z
        ∧ Forall2 (member_of self names name) (suites self) (g2_benchmarks group).
Proof.
  intros Hnames. destruct (group_by_name_names_Ok _ _ Hnames) as [_ Hin].
  unfold group_by_name. rewrite Hnames. simpl.
  match goal with |- context [rsequence (imap ?f _)] => set (F := f) end.
  assert (∀ i name, sorted names !! i = Some name →
            ∃ group, F i name = Ok group ∧ g2_name group = name
              ∧ g2_is_last group
                = bool_decide (Z.of_nat i = Z.of_nat (length (sorted names)) - 1)%Z
              ∧ Forall2 (member_of self names name) (suites self) (g2_benchmarks group))
    as HF.
  { intros i name Hi. unfold F.
    match goal with |- context [rsequence (?g <$> _)] => set (G := g) end.
    assert (name ∈ names) as Hname
      by (apply elem_of_sorted; by eapply list_elem_of_lookup_2).
    destruct (rsequence_returns (G <$> suites self)) as [items Hitems].
    { apply Forall_fmap, Forall_forall. intros suite Hsuite.
      destruct (proj1 (Hin name) Hname suite Hsuite) as (_ & bench & Hb & Hbn).
      destruct (get_benchmark_returns _ _ _ Hb Hbn) as [bench' Hget].
      unfold G. simpl. rewrite Hget. simpl. by eexists. }
    rewrite Hitems. simpl. eexists. split; [done|]. simpl.
    split; [done|]. split; [done|].
    apply rsequence_Ok, Forall2_fmap_l in Hitems.
    eapply Forall2_impl; [exact Hitems|]. intros suite item. unfold G. simpl.
    destruct (get_benchmark suite name) as [e|bench] eqn:Hget; simpl; [done|].
    intros [= <-]. unfold member_of. simpl. split; [done|]. split; [done|].
    rewrite length_sorted.
    destruct (bool_decide (1 < size names)%nat); [|done].
    by destruct (bool_decide (1 < get_nsuite self)%nat). }
  destruct (rsequence_returns (imap F (sorted names))) as [groups Hgroups].
  { apply Forall_lookup. intros i r. rewrite list_lookup_imap.
    destruct (sorted names !! i) as [name|] eqn:Hi; [|done]. intros [= <-].
    destruct (HF i name Hi) as (group & -> & _). by eexists. }
  exists groups. split; [done|].
  apply rsequence_Ok in Hgroups.
  split; [by rewrite <- (Forall2_length _ _ _ Hgroups), length_imap|].
  intros i name group Hi Hg.
  destruct (HF i name Hi) as (group' & HFi & Hprops).
  assert (imap F (sorted names) !! i = Some (F i name)) as Hl
    by (by rewrite list_lookup_imap, Hi).
  pose proof (Forall2_lookup_lr _ _ _ _ _ _ Hgroups Hl Hg) as Heq.
  simpl in Heq. rewrite HFi in Heq. by injection Heq as ->.
Qed.

Lemma group_by_name_names_of_groups self names groups :
  _group_by_name_names self = Ok names → group_by_name self = Ok groups →
  g2_name <$> groups = sorted names.
Proof.
  intros Hnames Hgroups.
  destruct (group_by_name_spec self names Hnames) as (groups' & Hg & Hlen & Hat).
  assert (groups' = groups) as -> by (unfold Ok in *; congruence).
  apply list_eq_same_length with (length groups);
    [by symmetry|by rewrite length_fmap|].
  intros i x y _. rewrite list_lookup_fmap.
  destruct (groups !! i) as [group|] eqn:Hi; [|done]. intros [= <-] Hy.
  by destruct (Hat i y group Hy Hi) as [-> _].
Qed.

Lemma group_by_name_group_at self names groups group :
  _group_by_name_names self = Ok names → group_by_name self = Ok groups →
  group ∈ groups →
  ∃ i, sorted names !! i = Some (g2_name group)
    ∧ g2_is_last group
      = bool_decide (Z.of_nat i = Z.of_nat (length (sorted names)) - 1)%Z
    ∧ Forall2 (member_of self names (g2_name group)) (suites self) (g2_benchmarks group).
Proof.
  intros Hnames Hgroups [i Hi]%list_elem_of_lookup.
  destruct (group_by_name_spec self names Hnames) as (groups' & Hg & Hlen & Hat).
  assert (groups' = groups) as -> by (unfold Ok in *; congruence).
  destruct (lookup_lt_is_Some_2 (sorted names) i) as [name Hname].
  { rewrite <- Hlen. by eapply lookup_lt_Some. }
  destruct (Hat i name group Hname Hi) as (<- & ? & ?). eauto.
Qed.

(** C2.  [group_by_name] returns one group per common name: the names of
    the groups are the common names, each once, in ascending order; a
    group has one member per loaded suite, in load order, the benchmark of
    that suite with the name of the group; [is_last] is set on the group
    of the greatest common name and on no other. *)
Theorem group_by_name_groups (self : Benchmarks) (names : gset string) :
  _group_by_name_names self = Ok names →
  ∃ groups, group_by_name self = Ok groups
    ∧ NoDup (g2_name <$> groups)
    ∧ (∀ x, x ∈ g2_name <$> groups ↔ x ∈ names)
    ∧ StronglySorted String.le (g2_name <$> groups)
    ∧ (∀ group, group ∈ groups →
         length (g2_benchmarks group) = get_nsuite self
         ∧ ∀ i suite, suites self !! i = Some suite →
             ∃ item, g2_benchmarks group !! i = Some item
               ∧ get_benchmark suite (g2_name group) = Ok (gi_benchmark item)
               ∧ gi_benchmark item ∈ get_benchmarks suite
               ∧ get_name (gi_benchmark item) = Some (g2_name group))
    ∧ (∀ group, group ∈ groups →
         g2_is_last group = true ↔ ∀ y, y ∈ names → String.le y (g2_name group)).
Proof.
  intros Hnames.
  destruct (group_by_name_spec self names Hnames) as (groups & Hgroups & _).
  exists groups. split; [done|].
  rewrite (group_by_name_names_of_groups self names groups Hnames Hgroups).
  split; [apply NoDup_sorted|]. split; [apply elem_of_sorted|].
  split; [apply StronglySorted_sorted|]. split.
  - intros group Hgroup.
    destruct (group_by_name_group_at _ _ _ _ Hnames Hgroups Hgroup)
      as (j & _ & _ & Hmembers).
    split; [symmetry; by eapply Forall2_length|].
    intros i suite Hi.
    destruct (Forall2_lookup_l _ _ _ _ _ Hmembers Hi) as (item & Hitem & Hget & _).
    exists item. split; [done|]. split; [done|]. by apply get_benchmark_Ok.
  - intros group Hgroup.
    destruct (group_by_name_group_at _ _ _ _ Hnames Hgroups Hgroup)
      as (j & Hj & -> & _).
    rewrite bool_decide_eq_true. by apply sorted_last_greatest.
Qed.

(** C7.  [group_by_name] returns a group for every common name, and every
    group has a member for every loaded suite.  The title of the member is
    [None] when there is only one common name; with several common names
    it is the name itself when a single suite is loaded and the display
    label of the member's suite when several suites are loaded. *)
Theorem group_by_name_titles (self : Benchmarks) (names : gset string) :
  _group_by_name_names self = Ok names →
  ∃ groups, group_by_name self = Ok groups
    ∧ (∀ name, name ∈ names → ∃ group, group ∈ groups ∧ g2_name group = name)
    ∧ ∀ group, group ∈ groups →
        g2_name group ∈ names
        ∧ length (g2_benchmarks group) = get_nsuite self
        ∧ ∀ i suite, suites self !! i = Some suite →
            ∃ item, g2_benchmarks group !! i = Some item
              ∧ (size names = 1 → gi_title item = None)
              ∧ ((1 < size names)%nat → get_nsuite self = 1 →
                 gi_title item = Some (g2_name group))
              ∧ ((1 < size names)%nat → (1 < get_nsuite self)%nat →
                 gi_title item
                 = Some (format_filename_func (suites self) (filename suite))).
Proof.
  intros Hnames.
  destruct (group_by_name_spec self names Hnames) as (groups & Hgroups & _).
  pose proof (group_by_name_names_of_groups self names groups Hnames Hgroups) as Hsorted.
  exists groups. split; [done|]. split.
  - intros name Hname. apply elem_of_sorted in Hname. rewrite <- Hsorted in Hname.
    apply list_elem_of_fmap in Hname as (group & -> & Hgroup). eauto.
  - intros group Hgroup.
    destruct (group_by_name_group_at _ _ _ _ Hnames Hgroups Hgroup)
      as (j & Hj & _ & Hmembers).
    split; [apply elem_of_sorted; by eapply list_elem_of_lookup_2|].
    split; [symmetry; by eapply Forall2_length|].
    intros i suite Hi.
    destruct (Forall2_lookup_l _ _ _ _ _ Hmembers Hi) as (item & Hitem & _ & _ & Htitle).
    exists item. split; [done|]. rewrite Htitle. repeat split.
    + intros ->. done.
    + intros H1 H2. rewrite bool_decide_eq_true_2 by done.
      rewrite bool_decide_eq_false_2 by lia. done.
    + intros H1 H2. by rewrite !bool_decide_eq_true_2.
Qed.

(** ** Ignored benchmarks *)

Lemma not_in_true names bench :
  not_in (get_name bench) names = true ↔ ¬ is_common names bench.
Proof.
  unfold not_in, is_common. destruct (get_name bench) as [n|].
  - rewrite bool_decide_eq_true. naive_solver.
  - naive_solver.
Qed.

Lemma ignored_of_filter names suite :
  ignored_of names suite = filter (λ bench, ¬ is_common names bench) (get_benchmarks suite).
Proof.
  unfold ignored_of.
  enough (∀ l acc,
    foldl (λ ignored bench,
      if not_in (get_name bench) names then (ignored ++ [bench])%list else ignored) acc l
    = (acc ++ filter (λ bench, ¬ is_common names bench) l)%list) as Hgen
    by apply (Hgen _ []).
  induction l as [|bench l IH]; intros acc; simpl.
  - by rewrite filter_nil, app_nil_r.
  - rewrite IH, filter_cons.
    destruct (not_in (get_name bench) names) eqn:E.
    + apply not_in_true in E. rewrite decide_True by done.
      by rewrite <- app_assoc.
    + rewrite decide_False; [done|]. rewrite <- not_in_true. by rewrite E.
Qed.

Lemma group_by_name_ignored_Ok self names :
  _group_by_name_names self = Ok names →
  group_by_name_ignored self
  = Ok ((λ suite, (suite, filter (λ bench, ¬ is_common names bench) (get_benchmarks suite)))
          <$> filter (λ suite, Exists (λ bench, ¬ is_common names bench) (get_benchmarks suite))
                     (suites self)).
Proof.
  intros Hnames. unfold group_by_name_ignored. rewrite Hnames. simpl. f_equal.
  induction (suites self) as [|suite l IH]; [done|].
  rewrite bind_cons, IH, filter_cons, ignored_of_filter.
  destruct (filter _ (get_benchmarks suite)) as [|bench benchmarks] eqn:E.
  - rewrite decide_False; [done|]. rewrite Exists_exists.
    intros (bench & Hb & Hnc).
    assert (bench ∈ filter (λ bench, ¬ is_common names bench) (get_benchmarks suite)) as Hf
      by (by apply list_elem_of_filter).
    rewrite E in Hf. by apply elem_of_nil in Hf.
  - rewrite decide_True; [by rewrite fmap_cons, E|].
    assert (bench ∈ filter (λ bench, ¬ is_common names bench) (get_benchmarks suite)) as Hf
      by (rewrite E; left).
    apply list_elem_of_filter in Hf. rewrite Exists_exists. naive_solver.
Qed.

(** C3.  [group_by_name_ignored] yields, for the suites in load order that
    have a benchmark whose name is not a common name, the suite with those
    benchmarks in the order of the suite; the other suites are left out.
    In every suite the ignored benchmarks and the benchmarks with a common
    name make up the benchmarks of the suite, each of them once. *)
Theorem group_by_name_ignored_partition (self : Benchmarks) (names : gset string) :
  _group_by_name_names self = Ok names →
  ∃ ignored, group_by_name_ignored self = Ok ignored
    ∧ ignored = ((λ suite, (suite, ignored_benchmarks names suite))
                   <$> filter (λ suite, ignored_benchmarks names suite ≠ []) (suites self))
    ∧ ∀ suite, suite ∈ suites self →
        (ignored_benchmarks names suite ++ common_benchmarks names suite)%list
          ≡ₚ get_benchmarks suite
        ∧ ∀ bench, bench ∈ ignored_benchmarks names suite →
            bench ∉ common_benchmarks names suite.
Proof.
  intros Hnames. eexists. split; [by apply group_by_name_ignored_Ok|]. split.
  - f_equal. apply list_filter_iff. intros suite. unfold ignored_benchmarks.
    rewrite Exists_exists. split.
    + intros (bench & Hb & Hnc) Hnil.
      assert (bench ∈ filter (λ bench, ¬ is_common names bench) (get_benchmarks suite)) as Hf
        by (by apply list_elem_of_filter).
      rewrite Hnil in Hf. by apply elem_of_nil in Hf.
    + destruct (filter _ _) as [|bench l] eqn:E; [done|]. intros _.
      assert (bench ∈ filter (λ bench, ¬ is_common names bench) (get_benchmarks suite)) as Hf
        by (rewrite E; left).
      apply list_elem_of_filter in Hf. naive_solver.
  - intros suite _. unfold ignored_benchmarks, common_benchmarks. split.
    + rewrite Permutation_app_comm. apply filter_app_complement.
    + intros bench [Hnc _]%list_elem_of_filter [Hc _]%list_elem_of_filter. done.
Qed.

(** C10.  A benchmark without a name, or with the empty name, of a loaded
    suite: its name is not a common name, no group of [group_by_name]
    contains it, and [group_by_name_ignored] lists it among the ignored
    benchmarks of its suite. *)
Theorem anonymous_benchmark_ignored (self : Benchmarks) suite bench :
  suite ∈ suites self → bench ∈ get_benchmarks suite →
  get_name bench = None ∨ get_name bench = Some EmptyString →
  ∃ names groups ignored,
    _group_by_name_names self = Ok names
    ∧ group_by_name self = Ok groups
    ∧ group_by_name_ignored self = Ok ignored
    ∧ (∀ n, get_name bench = Some n → n ∉ names)
    ∧ (∀ group item, group ∈ groups → item ∈ g2_benchmarks group →
         gi_benchmark item ≠ bench)
    ∧ (∃ l, (suite, l) ∈ ignored ∧ bench ∈ l).
Proof.
  intros Hsuite Hbench Hanon.
  destruct (group_by_name_names_returns self) as [names Hnames].
  { intros Hnil. rewrite Hnil in Hsuite. by apply elem_of_nil in Hsuite. }
  destruct (group_by_name_names_Ok _ _ Hnames) as [_ Hin].
  assert (EmptyString ∉ names) as Hempty.
  { intros Hx. rewrite Hin in Hx. by destruct (Hx suite Hsuite) as [Hne _]. }
  assert (¬ is_common names bench) as Hnc.
  { intros (n & Hn & Hnn). destruct Hanon as [Hanon|Hanon]; congruence. }
  destruct (group_by_name_spec self names Hnames) as (groups & Hgroups & _).
  exists names, groups. eexists. split; [done|]. split; [done|].
  split; [by apply group_by_name_ignored_Ok|]. split; [|split].
  - intros n Hn Hnn. apply Hnc. by exists n.
  - intros group item Hgroup [i Hitem]%list_elem_of_lookup Heq.
    destruct (group_by_name_group_at _ _ _ _ Hnames Hgroups Hgroup)
      as (j & Hj & _ & Hmembers).
    destruct (Forall2_lookup_r _ _ _ _ _ Hmembers Hitem) as (suite' & _ & Hget & _).
    apply get_benchmark_Ok in Hget as [_ Hget]. rewrite Heq in Hget.
    apply Hnc. exists (g2_name group). split; [done|].
    apply elem_of_sorted. by eapply list_elem_of_lookup_2.
  - assert (bench ∈ filter (λ bench, ¬ is_common names bench) (get_benchmarks suite)) as Hf
      by (by apply list_elem_of_filter).
    eexists. split; [|exact Hf].
    apply list_elem_of_fmap. exists suite. split; [done|].
    apply list_elem_of_filter. split; [|done].
    apply Exists_exists. eauto.
Qed.

(** ** The cross-suite iterator *)

Section iter_props.
Variable get_benchmark_name : Benchmark → string.





End iter_props.

(** ** Narrowing the collection to one benchmark *)

Lemma convert_include_benchmark_lacks suite name :
  lacks suite name → _convert_include_benchmark suite name = Raise (KeyError name).
Proof.
  unfold lacks, _convert_include_benchmark. intros Hl.
  destruct (filter _ _) as [|bench l] eqn:E; [done|].
  assert (bench ∈ filter (λ bench, get_name bench = Some name) (get_benchmarks suite)) as Hf
    by (rewrite E; left).
  apply list_elem_of_filter in Hf as [Hn Hin].
  rewrite Forall_forall in Hl. by destruct (Hl bench Hin).
Qed.

Lemma convert_include_benchmark_has suite name :
  ¬ lacks suite name → _convert_include_benchmark suite name = Ok (narrowed name suite).
Proof.
  unfold lacks, _convert_include_benchmark, narrowed. intros Hl.
  destruct (filter _ _) as [|bench l] eqn:E; [|done].
  exfalso. apply Hl, Forall_forall. intros bench Hin Hn.
  assert (bench ∈ filter (λ bench, get_name bench = Some name) (get_benchmarks suite)) as Hf
    by (by apply list_elem_of_filter).
  rewrite E in Hf. by apply elem_of_nil in Hf.
Qed.

Lemma first_lacking (l : list BenchmarkSuite) name :
  Exists (λ suite, lacks suite name) l →
  ∃ before suite after,
    l = (before ++ suite :: after)%list
    ∧ Forall (λ s, ¬ lacks s name) before ∧ lacks suite name.
Proof.
  induction l as [|s l IH]; [by intros ?%Exists_nil|].
  intros Hex. destruct (decide (lacks s name)) as [Hs|Hs].
  - exists [], s, l. by repeat split.
  - apply Exists_cons in Hex as [?|Hex]; [done|].
    destruct (IH Hex) as (before & suite & after & -> & Hb & Hsuite).
    exists (s :: before), suite, after. repeat split; [|done]. by constructor.
Qed.

(** Running the monad. *)
Lemma run_bind {A B} (m : M A) (k : A → M B) (st : state) :
  (m ≫= k) st
  = match m st with
    | (st', inl e) => (st', inl e)
    | (st', inr a) => k a st'
    end.
Proof. reflexivity. Qed.

Lemma run_set_suite index suite st :
  set_suite index suite st
  = ({| st_self := {| suites := <[index := suite]> (suites (st_self st)) |};
        st_events := st_events st |}, inr tt).
Proof. reflexivity. Qed.

Section include.
Variable repr : string → string.

Lemma include_benchmark_from_missing name before :
  ∀ visited suite after st,
    suites (st_self st) = (visited ++ before ++ suite :: after)%list →
    Forall (λ s, ¬ lacks s name) before → lacks suite name →
    include_benchmark_from repr name (length visited) (before ++ suite :: after) st
    = ({| st_self := {| suites := visited ++ (narrowed name <$> before) ++ suite :: after |};
          st_events := st_events st ++ [Stderr (missing_benchmark_message repr suite name)] |},
       Raise (SystemExit 1)).
Proof.
  induction before as [|s before IH]; intros visited suite after st Hst Hbefore Hsuite; simpl.
  - rewrite (convert_include_benchmark_lacks _ _ Hsuite). simpl.
    unfold fatal_missing_benchmark, mbind, M_bind, emit, sys_exit, raise. simpl.
    destruct st as [[l] evs]. simpl in *. by rewrite Hst.
  - apply Forall_cons in Hbefore as [Hs Hbefore].
    rewrite (convert_include_benchmark_has _ _ Hs). simpl.
    rewrite run_bind, run_set_suite, Hst.
    replace (<[length visited:=narrowed name s]>
               (visited ++ (s :: before) ++ suite :: after)%list)
      with ((visited ++ [narrowed name s]) ++ before ++ suite :: after)%list.
    2:{ rewrite insert_app_r_alt by lia. rewrite Nat.sub_diag. simpl.
        by rewrite <- app_assoc. }
    replace (S (length visited)) with (length (visited ++ [narrowed name s])%list)
      by (rewrite length_app; simpl; lia).
    rewrite IH; [|done|done|done]. simpl. by rewrite <- app_assoc.
Qed.

(** C6.  When [name] is absent from a loaded suite,
    [include_benchmark] fails: it prints the message naming the first
    suite, in load order, without a benchmark of that name and exits with
    status 1.  The suites loaded before that suite have been narrowed to
    their benchmarks of that name; that suite and the suites after it are
    as they were. *)
Theorem include_benchmark_missing (name : string) (st : state) :
  Exists (λ suite, lacks suite name) (suites (st_self st)) →
  ∃ before suite after,
    suites (st_self st) = (before ++ suite :: after)%list
    ∧ Forall (λ s, ¬ lacks s name) before
    ∧ lacks suite name
    ∧ include_benchmark repr name st
      = ({| st_self := {| suites := (narrowed name <$> before) ++ suite :: after |};
            st_events := st_events st ++ [Stderr (missing_benchmark_message repr suite name)] |},
         Raise (SystemExit 1)).
Proof.
  intros (before & suite & after & Hst & Hbefore & Hsuite)%first_lacking.
  exists before, suite, after. repeat (split; [done|]).
  unfold include_benchmark, mbind, M_bind, get_self. simpl. rewrite Hst.
  by apply (include_benchmark_from_missing name before [] suite after st).
Qed.
End include.

(** ** The comparison command *)

Section compare.
Variable BenchmarkSuite_load : string → result BenchmarkSuite.
Variable repr : string → string.

Lemma load_benchmark_suites_events filenames st :
  st_events (load_benchmark_suites BenchmarkSuite_load filenames st).1 = st_events st.
Proof.
  revert st. induction filenames as [|f filenames IH]; intros st; simpl; [done|].
  rewrite run_bind. unfold load_benchmark_suite. rewrite run_bind. unfold lift.
  destruct (BenchmarkSuite_load f) as [e|suite]; simpl; [done|].
  by rewrite IH.
Qed.

Lemma include_benchmark_from_Ok_events name todo :
  ∀ index st st', include_benchmark_from repr name index todo st = (st', inr tt) →
    st_events st' = st_events st.
Proof.
  induction todo as [|suite todo IH]; intros index st st'; simpl.
  - by intros [= <-].
  - destruct (_convert_include_benchmark suite name) as [[]|suite']; try done.
    rewrite run_bind, run_set_suite. by intros ->%IH.
Qed.

Lemma load_benchmarks_Ok_events args st st1 :
  load_benchmarks BenchmarkSuite_load repr args st = (st1, inr tt) →
  st_events st1 = st_events st.
Proof.
  unfold load_benchmarks. rewrite run_bind. unfold put_self at 1. simpl.
  rewrite run_bind.
  pose proof (load_benchmark_suites_events (args_filenames args)
    {| st_self := {| suites := [] |}; st_events := st_events st |}) as Hev.
  destruct (load_benchmark_suites _ _ _) as [st2 [e|[]]]; simpl in *; [done|].
  destruct (args_name args) as [name|]; [destruct (decide (name = EmptyString))|].
  - intros [= <-]. done.
  - unfold include_benchmark. rewrite run_bind. simpl.
    intros ->%include_benchmark_from_Ok_events. done.
  - intros [= <-]. done.
Qed.

Lemma cmd_compare_after_load args st st1 :
  load_benchmarks BenchmarkSuite_load repr args st = (st1, inr tt) →
  cmd_compare BenchmarkSuite_load repr args st
  = let data := st_self st1 in
    let by_speed :=
      if decide (args_action args = "compare_to") then args_group_by_speed args
      else false in
    if decide (get_nsuite data < 2)%nat then
      (with_event st1 (Stdout "ERROR: need at least two benchmark files"),
       Raise (SystemExit 1))
    else if by_speed && bool_decide (get_nsuite data ≠ 2) then
      (with_event st1 (Stderr "ERROR: by_speed only works on two benchmark files"),
       Raise (SystemExit 1))
    else
      (with_event st1
         (CallCompareSuites data (bool_decide (args_action args = "compare")) by_speed),
       Ok tt).
Proof.
  intros Hload. unfold cmd_compare. rewrite run_bind, Hload. simpl.
  rewrite run_bind. unfold get_self. simpl.
  destruct (decide (get_nsuite (st_self st1) < 2)%nat); [reflexivity|].
  destruct (_ && _); reflexivity.
Qed.

(** C8.  Once the suites are loaded, [cmd_compare] exits with status 1,
    having printed its error message and nothing else, when fewer than
    two suites are loaded, and when grouping by speed is asked for (the
    [compare_to] action with [group_by_speed]) and the number of suites is
    not two; in both cases [compare_suites] is not called. *)
Theorem cmd_compare_validates (args : Namespace) (st st1 : state) :
  load_benchmarks BenchmarkSuite_load repr args st = (st1, Ok tt) →
  let n := get_nsuite (st_self st1) in
  let run := cmd_compare BenchmarkSuite_load repr args st in
  ((n < 2)%nat →
     run = (with_event st1 (Stdout "ERROR: need at least two benchmark files"),
            Raise (SystemExit 1)))
  ∧ (args_action args = "compare_to" → args_group_by_speed args = true →
     (2 < n)%nat →
     run = (with_event st1 (Stderr "ERROR: by_speed only works on two benchmark files"),
            Raise (SystemExit 1)))
  ∧ ((n < 2)%nat
     ∨ (args_action args = "compare_to" ∧ args_group_by_speed args = true ∧ n ≠ 2) →
     run.2 = Raise (SystemExit 1)
     ∧ ∃ events, st_events run.1 = (st_events st ++ events)%list
         ∧ Forall (λ e, ¬ is_call e) events).
Proof.
  intros Hload n run.
  pose proof (cmd_compare_after_load args st st1 Hload) as Hrun.
  pose proof (load_benchmarks_Ok_events args st st1 Hload) as Hev.
  fold run in Hrun. simpl in Hrun. fold n in Hrun.
  split; [|split].
  - intros Hn. by rewrite Hrun, decide_True.
  - intros Ha Hg Hn. rewrite Hrun, decide_False by lia.
    rewrite (decide_True _ _ Ha), Hg. simpl.
    by rewrite bool_decide_eq_true_2 by lia.
  - intros Hcase. rewrite Hrun.
    destruct (decide (n < 2)%nat) as [|Hn]; simpl.
    + split; [done|]. rewrite Hev. eexists. split; [done|].
      constructor; [|constructor]. simpl. tauto.
    + destruct Hcase as [|(Ha & Hg & Hne)]; [done|].
      rewrite (decide_True _ _ Ha), Hg. simpl.
      rewrite bool_decide_eq_true_2 by done. simpl.
      split; [done|]. rewrite Hev. eexists. split; [done|].
      constructor; [|constructor]. simpl. tauto.
Qed.

(** Otherwise the command goes on to the comparison. *)
Lemma cmd_compare_compares args st st1 :
  load_benchmarks BenchmarkSuite_load repr args st = (st1, Ok tt) →
  (2 ≤ get_nsuite (st_self st1))%nat →
  (args_action args = "compare_to" → args_group_by_speed args = true →
   get_nsuite (st_self st1) = 2) →
  ∃ ranked by_speed,
    cmd_compare BenchmarkSuite_load repr args st
    = (with_event st1 (CallCompareSuites (st_self st1) ranked by_speed), Ok tt).
Proof.
  intros Hload Hn Hby. rewrite (cmd_compare_after_load args st st1 Hload). simpl.
  rewrite decide_False by lia.
  destruct (decide (args_action args = "compare_to")) as [Ha|Ha].
  - destruct (args_group_by_speed args) eqn:Hg; simpl.
    + rewrite bool_decide_eq_false_2 by (intros Hne; by apply Hne, Hby). eauto.
    + eauto.
  - simpl. eauto.
Qed.
End compare.

(** ** The properties on concrete collections *)

Lemma format_filename_func_injective_witness :
  format_filename_func labels_ex "a/x.json" ≠ format_filename_func labels_ex "b/y.json".
Proof.
  apply (proj1 (format_filename_func_injective labels_ex)
           (mk_suite "a/x.json" []) (mk_suite "b/y.json" [])).
  - left.
  - right. left.
  - simpl. discriminate.
Defined.

Lemma group_by_name_names_intersection_witness :
  ∃ names, _group_by_name_names data_ex = Ok names
    ∧ ∀ x, x ∈ names ↔ ∀ suite, suite ∈ suites data_ex → has_name suite x.
Proof.
  destruct (group_by_name_names_intersection data_ex) as (names & Hnames & Hin & _).
  - simpl. discriminate.
  - exists names. split; [exact Hnames|exact Hin].
Defined.

Lemma group_by_name_groups_witness :
  ∃ groups, group_by_name data_ex = Ok groups
    ∧ ∀ x, x ∈ g2_name <$> groups ↔ x ∈ ({[ "telco"; "nbody" ]} : gset string).
Proof.
  destruct (group_by_name_groups data_ex {[ "telco"; "nbody" ]})
    as (groups & Hgroups & _ & Hin & _).
  - vm_compute. reflexivity.
  - exists groups. split; [exact Hgroups|exact Hin].
Defined.

Lemma group_by_name_titles_witness :
  ∃ groups group item,
    group_by_name data_ex = Ok groups
    ∧ group ∈ groups ∧ g2_name group = "telco"
    ∧ g2_benchmarks group !! 1 = Some item
    ∧ gi_title item = Some "py3".
Proof.
  destruct (group_by_name_titles data_ex {[ "telco"; "nbody" ]})
    as (groups & Hgroups & Hnamed & Hmembers).
  - vm_compute. reflexivity.
  - destruct (Hnamed "telco") as (group & Hgroup & Hname); [set_solver|].
    destruct (Hmembers group Hgroup) as (_ & _ & Hitems).
    destruct (Hitems 1 (mk_suite "b/py3.json" [Some "nbody"; Some EmptyString; Some "telco"]))
      as (item & Hitem & _ & _ & Htitle); [reflexivity|].
    exists groups, group, item. repeat (split; [assumption|]).
    rewrite Htitle; [vm_compute; reflexivity|vm_compute; lia|vm_compute; lia].
Defined.

Lemma group_by_name_ignored_partition_witness :
  group_by_name_ignored data_ex
  = Ok [(mk_suite "a/py2.json" [Some "telco"; Some "go"; None; Some "nbody"],
         [{| get_name := Some "go"; get_runs := [] |};
          {| get_name := None; get_runs := [] |}]);
        (mk_suite "b/py3.json" [Some "nbody"; Some EmptyString; Some "telco"],
         [{| get_name := Some EmptyString; get_runs := [] |}])].
Proof.
  destruct (group_by_name_ignored_partition data_ex {[ "telco"; "nbody" ]})
    as (ignored & -> & -> & _).
  - vm_compute. reflexivity.
  - vm_compute. reflexivity.
Defined.

Lemma anonymous_benchmark_ignored_witness :
  ∃ ignored l, group_by_name_ignored data_ex = Ok ignored
    ∧ (mk_suite "a/py2.json" [Some "telco"; Some "go"; None; Some "nbody"], l) ∈ ignored
    ∧ {| get_name := None; get_runs := [] |} ∈ l.
Proof.
  destruct (anonymous_benchmark_ignored data_ex
              (mk_suite "a/py2.json" [Some "telco"; Some "go"; None; Some "nbody"])
              {| get_name := None; get_runs := [] |})
    as (names & groups & ignored & _ & _ & Hignored & _ & _ & l & Hl & Hin).
  - left.
  - simpl. do 2 right. left.
  - left. reflexivity.
  - exists ignored, l. split; [exact Hignored|]. split; [exact Hl|exact Hin].
Defined.


Lemma include_benchmark_missing_witness :
  ∃ suite, lacks suite "telco"
    ∧ (include_benchmark repr_ex "telco" narrowing_ex).2 = Raise (SystemExit 1)
    ∧ st_events (include_benchmark repr_ex "telco" narrowing_ex).1
      = [Stderr (missing_benchmark_message repr_ex suite "telco")].
Proof.
  destruct (include_benchmark_missing repr_ex "telco" narrowing_ex)
    as (before & suite & after & _ & _ & Hlacks & Hrun).
  - right. left. constructor; [discriminate|constructor].
  - exists suite. rewrite Hrun. split; [exact Hlacks|]. split; reflexivity.
Defined.

(** "telco" is absent from the second suite, the call fails, and the first
    suite has lost its benchmark "nbody". *)
Lemma include_benchmark_counterexample :
  Exists (λ suite, lacks suite "telco") (suites (st_self narrowing_ex))
  ∧ (include_benchmark repr_ex "telco" narrowing_ex).2 = Raise (SystemExit 1)
  ∧ st_self (include_benchmark repr_ex "telco" narrowing_ex).1 ≠ st_self narrowing_ex.
Proof.
  split; [|split].
  - right. left. constructor; [discriminate|constructor].
  - reflexivity.
  - discriminate.
Qed.

Lemma cmd_compare_validates_witness :
  cmd_compare load_ex repr_ex compare_args_ex start_ex
  = ({| st_self := {| suites := [mk_suite "a.json" [Some "telco"]] |};
        st_events := [Stdout "ERROR: need at least two benchmark files"] |},
     Raise (SystemExit 1)).
Proof.
  apply (proj1 (cmd_compare_validates load_ex repr_ex compare_args_ex start_ex
                  {| st_self := {| suites := [mk_suite "a.json" [Some "telco"]] |};
                     st_events := [] |} eq_refl)).
  unfold get_nsuite. simpl. lia.
Defined.

(** * Further properties of the collection *)

(** ** The order of the iterator and its last item *)

Section iter_order.
Variable get_benchmark_name : Benchmark → string.

Lemma iter_rows self :
  __iter__ get_benchmark_name self
  = mjoin (imap (iter_items get_benchmark_name self) (suites self)).
Proof. reflexivity. Qed.

Lemma join_imap_fmap {A B C} (g : B → C) (h : A → list C) (l : list A) :
  ∀ F : nat → A → list B,
    (∀ i x, g <$> F i x = h x) → g <$> mjoin (imap F l) = l ≫= h.
Proof.
  induction l as [|x l IH]; intros F HF; [done|].
  rewrite imap_cons, bind_cons. cbn [mjoin list_join]. rewrite fmap_app, HF. f_equal.
  apply IH. intros i y. apply HF.
Qed.

(** X1.  The iterator yields one item for each benchmark of each suite, the
    suites in load order and, in a suite, the benchmarks in the order of
    the suite. *)
Theorem iter_order (self : Benchmarks) :
  (λ item, (di_suite item, di_benchmark item)) <$> __iter__ get_benchmark_name self
  = (suites self ≫= λ suite, (λ bench, (suite, bench)) <$> get_benchmarks suite)
  ∧ length (__iter__ get_benchmark_name self) = __len__ self.
Proof.
  assert ((λ item, (di_suite item, di_benchmark item)) <$> __iter__ get_benchmark_name self
          = (suites self ≫= λ suite, (λ bench, (suite, bench)) <$> get_benchmarks suite))
    as Horder.
  { rewrite iter_rows. apply join_imap_fmap. intros i suite.
    unfold iter_items. rewrite fmap_imap. simpl.
    apply (imap_const (λ bench, (suite, bench))). }
  split; [done|].
  rewrite <- (length_fmap (λ item, (di_suite item, di_benchmark item))), Horder.
  clear Horder. unfold __len__. induction (suites self) as [|suite l IH]; [done|].
  rewrite bind_cons, length_app, length_fmap, IH. done.
Qed.

(** X2.  [is_last] is set on the final item the iterator yields, provided the
    suite loaded last has a benchmark, and on no other item; when the suite
    loaded last has no benchmark, no item has [is_last]. *)
Theorem iter_is_last (self : Benchmarks) (k : nat) (item : DataItem) :
  __iter__ get_benchmark_name self !! k = Some item →
  di_is_last item = true
  ↔ S k = length (__iter__ get_benchmark_name self)
    ∧ ∃ suite, last (suites self) = Some suite ∧ get_benchmarks suite ≠ [].
Proof.
  rewrite iter_rows. destruct self as [l]. simpl.
  destruct l as [|s front _] using rev_ind; [intros Hk; simpl in Hk; done|].
  rewrite imap_app, join_app. simpl. rewrite app_nil_r, Nat.add_0_r.
  set (A := mjoin (imap _ front)).
  set (B := iter_items _ _ (length front) s).
  assert (length B = length (get_benchmarks s)) as HlenB
    by (unfold B, iter_items; apply length_imap).
  rewrite last_snoc, length_app. intros Hk.
  apply lookup_app_Some in Hk as [Hk|[Hge Hk]].
  - assert (di_is_last item = false) as ->.
    { apply list_elem_of_lookup_2, list_elem_of_join in Hk as (row & Hitem & Hrow).
      apply elem_of_lookup_imap in Hrow as (i & suite & -> & Hi).
      unfold iter_items in Hitem.
      apply elem_of_lookup_imap in Hitem as (j & bench & -> & Hj). simpl.
      apply lookup_lt_Some in Hi. rewrite length_app. simpl.
      rewrite bool_decide_eq_false_2 by lia. done. }
    split; [done|]. intros [Hlen (suite & [= <-] & Hne)].
    apply lookup_lt_Some in Hk.
    destruct (get_benchmarks s); [done|]. simpl in HlenB. lia.
  - unfold B, iter_items in Hk.
    rewrite list_lookup_imap in Hk.
    destruct (get_benchmarks s !! (k - length A)) as [bench|] eqn:Hb; [|done].
    injection Hk as <-. simpl. apply lookup_lt_Some in Hb.
    rewrite length_app. simpl.
    rewrite (bool_decide_eq_true_2 (Z.of_nat (length front)
               = Z.of_nat (length front + 1) - 1)%Z) by lia.
    simpl. rewrite bool_decide_eq_true. split.
    + intros Hlast. split; [lia|]. exists s. split; [done|].
      intros Hnil. rewrite Hnil in Hb. simpl in Hb. lia.
    + intros [Hlen _]. lia.
Qed.
End iter_order.

(** ** Labels of the suites *)

Lemma format_filename_func_inj_on suites s1 s2 :
  s1 ∈ suites → s2 ∈ suites →
  format_filename_func suites (filename s1) = format_filename_func suites (filename s2) →
  filename s1 = filename s2.
Proof.
  intros H1 H2 Hlabel.
  destruct (distinct_basenames_dec suites) as [Hd|Hd].
  - assert (posixpath.basename (filename s1) = posixpath.basename (filename s2)) as Hb.
    { destruct (format_filename_func_cases suites Hd) as [[Hinj Hlab]|[_ Hlab]];
        rewrite !Hlab in Hlabel; [by apply Hinj|done]. }
    apply list_elem_of_lookup in H1 as [i Hi], H2 as [j Hj].
    assert (i = j) as -> by (eapply Hd; eauto). congruence.
  - by rewrite !(format_filename_func_full_path suites Hd) in Hlabel.
Qed.

(** X3.  [iter_suites] yields one record per loaded suite, in load order: the
    record at the position of a suite holds that suite and the label
    [format_filename_func] gives to its file name.  When no two loaded
    suites have the same file name, no two of the labels it yields are
    the same. *)
Theorem iter_suites_labels (self : Benchmarks) :
  length (iter_suites self) = get_nsuite self
  ∧ is_suite <$> iter_suites self = suites self
  ∧ (∀ i suite, suites self !! i = Some suite →
       iter_suites self !! i
       = Some {| is_filename := format_filename_func (suites self) (filename suite);
                 is_suite := suite |})
  ∧ (NoDup (filename <$> suites self) → NoDup (is_filename <$> iter_suites self)).
Proof.
  unfold iter_suites, get_nsuite. split; [apply length_fmap|].
  split; [|split].
  - rewrite <- list_fmap_compose. apply list_fmap_id.
  - intros i suite Hi. by rewrite list_lookup_fmap, Hi.
  - rewrite <- list_fmap_compose.
    intros Hnd. apply NoDup_fmap_2_strong; [|by eapply NoDup_fmap_1].
    intros s1 s2 H1 H2 Hlabel. simpl in Hlabel.
    apply (NoDup_fmap_inj_on filename (suites self)); [done..|].
    by apply (format_filename_func_inj_on (suites self)).
Qed.

(** X4.  With a single suite loaded the label of a file is the stem of its
    basename. *)
Theorem format_filename_func_single (suite : BenchmarkSuite) (f : string) :
  format_filename_func [suite] f = stem (posixpath.basename f).
Proof.
  assert (distinct_basenames [suite]) as Hd.
  { intros i j s1 s2 Hi Hj _.
    apply lookup_lt_Some in Hi, Hj. simpl in *. lia. }
  destruct (format_filename_func_cases [suite] Hd)
    as [[_ Hlab]|[(s1 & s2 & H1 & H2 & Hb & _) _]]; [done|].
  apply list_elem_of_singleton in H1, H2. congruence.
Qed.

(** ** Narrowing that succeeds *)

Lemma filter_none {A} (P : A → Prop) `{!∀ x, Decision (P x)} (l : list A) :
  Forall (λ x, ¬ P x) l → filter P l = [].
Proof.
  induction 1 as [|x l Hx _ IH]; [done|].
  by rewrite filter_cons, decide_False.
Qed.

Lemma filter_all {A} (P : A → Prop) `{!∀ x, Decision (P x)} (l : list A) :
  Forall P l → filter P l = l.
Proof.
  induction 1 as [|x l Hx _ IH]; [done|].
  by rewrite filter_cons, decide_True, IH.
Qed.

Lemma narrowed_not_lacks name suite :
  ¬ lacks suite name → ¬ lacks (narrowed name suite) name.
Proof.
  unfold lacks, narrowed. simpl. rewrite !Forall_forall.
  intros Hl Hn. apply Hl. intros bench Hin Hname.
  apply (Hn bench); [|done]. by apply list_elem_of_filter.
Qed.

Lemma narrowed_idemp name suite :
  narrowed name (narrowed name suite) = narrowed name suite.
Proof.
  unfold narrowed. simpl. f_equal.
  rewrite list_filter_filter. apply list_filter_iff. tauto.
Qed.

Section include_present.
Variable repr : string → string.

Lemma include_benchmark_from_present name todo :
  ∀ visited st,
    suites (st_self st) = (visited ++ todo)%list →
    Forall (λ s, ¬ lacks s name) todo →
    include_benchmark_from repr name (length visited) todo st
    = ({| st_self := {| suites := visited ++ (narrowed name <$> todo) |};
          st_events := st_events st |}, Ok tt).
Proof.
  induction todo as [|s todo IH]; intros visited st Hst Htodo; simpl.
  - rewrite app_nil_r in *. destruct st as [[l] evs]. simpl in *. by rewrite Hst.
  - apply Forall_cons in Htodo as [Hs Htodo].
    rewrite (convert_include_benchmark_has _ _ Hs). simpl.
    rewrite run_bind, run_set_suite, Hst.
    replace (<[length visited:=narrowed name s]> (visited ++ s :: todo)%list)
      with ((visited ++ [narrowed name s]) ++ todo)%list.
    2:{ rewrite insert_app_r_alt by lia. rewrite Nat.sub_diag. simpl.
        by rewrite <- app_assoc. }
    replace (S (length visited)) with (length (visited ++ [narrowed name s])%list)
      by (rewrite length_app; simpl; lia).
    rewrite IH; [|done|done]. simpl. by rewrite <- app_assoc.
Qed.

Lemma include_benchmark_run_present name st :
  Forall (λ s, ¬ lacks s name) (suites (st_self st)) →
  include_benchmark repr name st
  = ({| st_self := {| suites := narrowed name <$> suites (st_self st) |};
        st_events := st_events st |}, Ok tt).
Proof.
  intros Hall. unfold include_benchmark. rewrite run_bind. unfold get_self. simpl.
  by apply (include_benchmark_from_present name (suites (st_self st)) [] st).
Qed.

(** X5.  When every loaded suite has a benchmark called [name],
    [include_benchmark] returns normally and prints nothing; every suite
    keeps its file name and exactly its benchmarks called [name], in their
    order, and the suites stay in load order. *)
Theorem include_benchmark_present (name : string) (st : state) :
  Forall (λ s, ¬ lacks s name) (suites (st_self st)) →
  include_benchmark repr name st
  = ({| st_self := {| suites := narrowed name <$> suites (st_self st) |};
        st_events := st_events st |}, Ok tt).
Proof. apply include_benchmark_run_present. Qed.

(** X6.  Narrowing a second time to the same name changes nothing. *)
Theorem include_benchmark_idempotent (name : string) (st : state) :
  Forall (λ s, ¬ lacks s name) (suites (st_self st)) →
  let st' := (include_benchmark repr name st).1 in
  include_benchmark repr name st' = (st', Ok tt).
Proof.
  intros Hall. rewrite (include_benchmark_run_present name st Hall). simpl.
  rewrite include_benchmark_run_present; simpl.
  - rewrite <- list_fmap_compose. do 3 f_equal.
    apply list_fmap_ext. intros i s _. apply narrowed_idemp.
  - apply Forall_fmap. eapply Forall_impl; [exact Hall|].
    intros s. apply narrowed_not_lacks.
Qed.

(** X7.  After a narrowing that succeeds, to a name that is not empty and on at
    least one suite, the common names are that name alone: [group_by_name]
    returns one group, of that name, marked last, whose members have no
    title, and [group_by_name_ignored] yields nothing. *)
Theorem include_benchmark_then_group (name : string) (st : state) :
  name ≠ EmptyString → suites (st_self st) ≠ [] →
  Forall (λ s, ¬ lacks s name) (suites (st_self st)) →
  let data := st_self (include_benchmark repr name st).1 in
  _group_by_name_names data = Ok {[ name ]}
  ∧ group_by_name_ignored data = Ok []
  ∧ ∃ group, group_by_name data = Ok [group]
      ∧ g2_name group = name ∧ g2_is_last group = true
      ∧ length (g2_benchmarks group) = get_nsuite (st_self st)
      ∧ Forall (λ item, gi_title item = None) (g2_benchmarks group).
Proof.
  intros Hname Hne Hall. rewrite (include_benchmark_run_present name st Hall). simpl.
  set (data := {| suites := narrowed name <$> suites (st_self st) |}).
  assert (∀ suite bench, suite ∈ suites data → bench ∈ get_benchmarks suite →
            get_name bench = Some name) as Hnamed.
  { intros suite bench (s & -> & _)%list_elem_of_fmap Hb. simpl in Hb.
    by apply list_elem_of_filter in Hb as [? _]. }
  destruct (group_by_name_names_returns data) as [names Hnames].
  { simpl. by destruct (suites (st_self st)). }
  destruct (group_by_name_names_Ok _ _ Hnames) as [_ Hin].
  assert (names = {[ name ]}) as ->.
  { apply set_eq. intros x. rewrite Hin, elem_of_singleton. split.
    - intros Hx. destruct (suites (st_self st)) as [|s l] eqn:E; [done|].
      destruct (Hx (narrowed name s)) as (_ & bench & Hb & Hbn).
      { simpl. try rewrite E. left. }
      assert (get_name bench = Some name) as Hn.
      { apply (Hnamed (narrowed name s)); [|done]. simpl. try rewrite E. left. }
      congruence.
    - intros -> suite Hsuite. split; [done|].
      pose proof Hsuite as (s & -> & Hs)%list_elem_of_fmap.
      rewrite Forall_forall in Hall.
      destruct (decide (Exists (λ bench, get_name bench = Some name) (get_benchmarks s)))
        as [(bench & Hb & Hbn)%Exists_exists|Hnex].
      + exists bench. split; [|done]. simpl. by apply list_elem_of_filter.
      + exfalso. apply (Hall s Hs). apply Forall_forall. intros bench Hb Hbn.
        apply Hnex, Exists_exists. eauto. }
  split; [done|]. split.
  - rewrite (group_by_name_ignored_Ok _ _ Hnames).
    rewrite filter_none; [done|].
    apply Forall_forall. intros suite Hsuite (bench & Hb & Hnc)%Exists_exists.
    apply Hnc. exists name. split; [by apply (Hnamed suite)|by apply elem_of_singleton].
  - destruct (group_by_name_spec data _ Hnames) as (groups & Hgroups & Hlen & Hat).
    assert (sorted {[ name ]} = [name]) as Hsorted.
    { apply Permutation_singleton_r.
      by rewrite sorted_Permutation, elements_singleton. }
    rewrite Hsorted in Hlen, Hat.
    destruct groups as [|group [|? ?]]; try done.
    destruct (Hat 0 name group eq_refl eq_refl) as (Hn & Hlast & Hmembers).
    exists group. split; [done|]. split; [done|]. split; [by rewrite Hlast|]. split.
    + rewrite <- (Forall2_length _ _ _ Hmembers). simpl.
      by rewrite length_fmap.
    + apply Forall_forall. intros item [i Hitem]%list_elem_of_lookup.
      destruct (Forall2_lookup_r _ _ _ _ _ Hmembers Hitem) as (suite & _ & _ & _ & ->).
      by rewrite size_singleton.
Qed.
End include_present.

(** ** Loading *)

Section loading.
Variable BenchmarkSuite_load : string → result BenchmarkSuite.
Variable repr : string → string.

Lemma run_load_benchmark_suite f st :
  load_benchmark_suite BenchmarkSuite_load f st
  = match BenchmarkSuite_load f with
    | inl e => (st, inl e)
    | inr suite =>
        ({| st_self := {| suites := suites (st_self st) ++ [suite] |};
            st_events := st_events st |}, inr tt)
    end.
Proof.
  unfold load_benchmark_suite. rewrite run_bind. unfold lift.
  by destruct (BenchmarkSuite_load f).
Qed.

Lemma load_benchmark_suites_loaded filenames :
  ∀ loaded st,
    Forall2 (λ f suite, BenchmarkSuite_load f = Ok suite) filenames loaded →
    load_benchmark_suites BenchmarkSuite_load filenames st
    = ({| st_self := {| suites := suites (st_self st) ++ loaded |};
          st_events := st_events st |}, Ok tt).
Proof.
  induction filenames as [|f filenames IH]; intros loaded st Hall.
  - apply Forall2_nil_inv_l in Hall as ->. simpl.
    rewrite app_nil_r. by destruct st as [[l] evs].
  - apply Forall2_cons_inv_l in Hall as (suite & loaded' & Hf & Hall & ->). simpl.
    rewrite run_bind, run_load_benchmark_suite, Hf. unfold Ok.
    rewrite (IH loaded' _ Hall). simpl. by rewrite <- app_assoc.
Qed.

(** X8.  When every file loads, [load_benchmark_suites] appends the loaded suites
    to the collection in the order of the file names and prints nothing. *)
Theorem load_benchmark_suites_all (filenames : list string)
    (loaded : list BenchmarkSuite) (st : state) :
  Forall2 (λ f suite, BenchmarkSuite_load f = Ok suite) filenames loaded →
  load_benchmark_suites BenchmarkSuite_load filenames st
  = ({| st_self := {| suites := suites (st_self st) ++ loaded |};
        st_events := st_events st |}, Ok tt).
Proof. apply load_benchmark_suites_loaded. Qed.

(** X9.  [load_benchmark_suites] stops at the first file that fails to load: the
    exception of that file propagates, the suites of the files before it
    stay in the collection and the files after it are not loaded. *)
Theorem load_benchmark_suites_stops (before after : list string) (f : string)
    (loaded : list BenchmarkSuite) (e : exn) (st : state) :
  Forall2 (λ f suite, BenchmarkSuite_load f = Ok suite) before loaded →
  BenchmarkSuite_load f = Raise e →
  load_benchmark_suites BenchmarkSuite_load (before ++ f :: after) st
  = ({| st_self := {| suites := suites (st_self st) ++ loaded |};
        st_events := st_events st |}, Raise e).
Proof.
  revert loaded st. induction before as [|f' before IH]; intros loaded st Hall Hf.
  - apply Forall2_nil_inv_l in Hall as ->. simpl.
    rewrite run_bind, run_load_benchmark_suite, Hf. unfold Raise.
    rewrite app_nil_r. by destruct st as [[l] evs].
  - apply Forall2_cons_inv_l in Hall as (suite & loaded' & Hf' & Hall & ->). simpl.
    rewrite run_bind, run_load_benchmark_suite, Hf'. unfold Ok.
    rewrite (IH loaded' _ Hall Hf). simpl. by rewrite <- app_assoc.
Qed.

Lemma load_benchmark_suites_Ok_nsuite filenames :
  ∀ st st', load_benchmark_suites BenchmarkSuite_load filenames st = (st', inr tt) →
    get_nsuite (st_self st') = (get_nsuite (st_self st) + length filenames)%nat.
Proof.
  unfold get_nsuite.
  induction filenames as [|f filenames IH]; intros st st'; simpl.
  - intros [= <-]. lia.
  - rewrite run_bind, run_load_benchmark_suite.
    destruct (BenchmarkSuite_load f) as [e|suite]; [done|].
    intros ->%IH. simpl. rewrite length_app. simpl. lia.
Qed.

Lemma include_benchmark_from_Ok_nsuite name todo :
  ∀ index st st', include_benchmark_from repr name index todo st = (st', inr tt) →
    get_nsuite (st_self st') = get_nsuite (st_self st).
Proof.
  unfold get_nsuite.
  induction todo as [|suite todo IH]; intros index st st'; simpl.
  - by intros [= <-].
  - destruct (_convert_include_benchmark suite name) as [[]|suite']; try done.
    rewrite run_bind, run_set_suite. intros ->%IH. simpl. apply length_insert.
Qed.

Lemma load_benchmarks_Ok_nsuite args st st1 :
  load_benchmarks BenchmarkSuite_load repr args st = (st1, inr tt) →
  get_nsuite (st_self st1) = length (args_filenames args).
Proof.
  unfold load_benchmarks. rewrite run_bind. unfold put_self at 1. simpl.
  rewrite run_bind.
  destruct (load_benchmark_suites _ _ _) as [st2 [e|[]]] eqn:Hload; [done|].
  apply load_benchmark_suites_Ok_nsuite in Hload. simpl in Hload.
  destruct (args_name args) as [name|]; [destruct (decide (name = EmptyString))|].
  - intros [= <-]. done.
  - unfold include_benchmark. rewrite run_bind. simpl.
    intros ->%include_benchmark_from_Ok_nsuite. done.
  - intros [= <-]. done.
Qed.

(** X10.  A [load_benchmarks] that returns leaves one suite per file name in the
    collection, whatever the collection held before and whether or not a
    benchmark name was given. *)
Theorem load_benchmarks_nsuite (args : Namespace) (st st1 : state) :
  load_benchmarks BenchmarkSuite_load repr args st = (st1, Ok tt) →
  get_nsuite (st_self st1) = length (args_filenames args).
Proof. apply load_benchmarks_Ok_nsuite. Qed.

Lemma include_benchmark_from_events name todo :
  ∀ index st,
    ∃ events,
      st_events (include_benchmark_from repr name index todo st).1
      = (st_events st ++ events)%list
      ∧ Forall (λ e, ¬ is_call e) events.
Proof.
  induction todo as [|suite todo IH]; intros index st; simpl.
  - exists []. by rewrite app_nil_r.
  - destruct (_convert_include_benchmark suite name) as [e|suite'].
    + destruct e; try (exists []; simpl; by rewrite app_nil_r).
      eexists [_]. split; [reflexivity|]. constructor; [|constructor]. simpl. tauto.
    + rewrite run_bind, run_set_suite.
      match goal with
      | |- context [include_benchmark_from _ _ _ _ ?s] =>
          destruct (IH (S index) s) as (events & Hev & Hnocall)
      end.
      exists events. split; [exact Hev|exact Hnocall].
Qed.

Lemma load_benchmarks_events args st :
  ∃ events,
    st_events (load_benchmarks BenchmarkSuite_load repr args st).1
    = (st_events st ++ events)%list
    ∧ Forall (λ e, ¬ is_call e) events.
Proof.
  unfold load_benchmarks. rewrite run_bind. unfold put_self at 1. simpl.
  rewrite run_bind.
  pose proof (load_benchmark_suites_events BenchmarkSuite_load (args_filenames args)
    {| st_self := {| suites := [] |}; st_events := st_events st |}) as Hev.
  destruct (load_benchmark_suites _ _ _) as [st2 [e|[]]]; simpl in *.
  - exists []. by rewrite app_nil_r.
  - destruct (args_name args) as [name|]; [destruct (decide (name = EmptyString))|].
    + exists []. simpl. by rewrite app_nil_r.
    + unfold include_benchmark. rewrite run_bind. simpl.
      rewrite <- Hev. apply include_benchmark_from_events.
    + exists []. simpl. by rewrite app_nil_r.
Qed.

(** X11.  With fewer than two file names [cmd_compare] never returns normally
    and never calls [compare_suites], whatever the files hold: it ends
    with the exception of the loading or with an exit. *)
Theorem cmd_compare_few_files (args : Namespace) (st : state) :
  (length (args_filenames args) < 2)%nat →
  let run := cmd_compare BenchmarkSuite_load repr args st in
  run.2 ≠ Ok tt
  ∧ ∃ events, st_events run.1 = (st_events st ++ events)%list
      ∧ Forall (λ e, ¬ is_call e) events.
Proof.
  intros Hfew run.
  destruct (load_benchmarks_events args st) as (events & Hev & Hnocall).
  destruct (load_benchmarks BenchmarkSuite_load repr args st) as [st1 [e|[]]] eqn:Hload.
  - assert (run = (st1, inl e)) as ->.
    { unfold run, cmd_compare. by rewrite run_bind, Hload. }
    split; [done|]. eauto.
  - pose proof (load_benchmarks_Ok_nsuite args st st1 Hload) as Hn.
    assert (run = (with_event st1 (Stdout "ERROR: need at least two benchmark files"),
                   Raise (SystemExit 1))) as ->.
    { unfold run. rewrite (cmd_compare_after_load _ _ args st st1 Hload). simpl.
      by rewrite decide_True by lia. }
    split; [done|]. simpl in *. rewrite Hev.
    eexists. rewrite <- app_assoc. split; [done|].
    apply Forall_app. split; [done|]. constructor; [|constructor]. simpl. tauto.
Qed.
End loading.

(** ** No common name *)

(** X12.  When the loaded suites have no name in common, [group_by_name] returns no
    group and [group_by_name_ignored] yields every suite that has a
    benchmark, in load order, with all its benchmarks. *)
Theorem no_common_name (self : Benchmarks) :
  _group_by_name_names self = Ok ∅ →
  group_by_name self = Ok []
  ∧ group_by_name_ignored self
    = Ok ((λ suite, (suite, get_benchmarks suite))
            <$> filter (λ suite, get_benchmarks suite ≠ []) (suites self)).
Proof.
  intros Hnames. split.
  - destruct (group_by_name_spec self ∅ Hnames) as (groups & Hgroups & Hlen & _).
    rewrite length_sorted, size_empty in Hlen. by destruct groups.
  - rewrite (group_by_name_ignored_Ok self ∅ Hnames). f_equal.
    rewrite (list_filter_iff _ (λ suite, get_benchmarks suite ≠ [])).
    2:{ intros suite. rewrite Exists_exists. split.
        - intros (bench & Hb & _) Hnil. rewrite Hnil in Hb. by apply elem_of_nil in Hb.
        - destruct (get_benchmarks suite) as [|bench l]; [done|]. intros _.
          exists bench. split; [left|].
          intros (n & _ & Hn). by apply not_elem_of_empty in Hn. }
    apply list_fmap_ext. intros i suite _. f_equal.
    apply filter_all, Forall_forall.
    intros bench _ (n & _ & Hn). by apply not_elem_of_empty in Hn.
Qed.

(** * Properties of the other commands *)

Example update_metadata_ex :
  update_metadata_of isspace_ex "os=linux, cpu = x86 ,,os=bsd,flag"
  = {[ "os" := "bsd"; "cpu " := " x86"; "flag" := EmptyString ]}.
Proof. vm_compute. reflexivity. Qed.

(** ** The [--update-metadata] argument *)

Lemma occurs_app c a b : occurs c (a +:+ b) ↔ occurs c a ∨ occurs c b.
Proof. induction a as [|x a IH]; simpl; [tauto|]. rewrite IH. tauto. Qed.

Lemma string_app_assoc (a b c : string) : (a +:+ b) +:+ c = a +:+ b +:+ c.
Proof.
  induction a as [|x a IH]; [done|].
  change (String x ((a +:+ b) +:+ c) = String x (a +:+ b +:+ c)). by rewrite IH.
Qed.

Section update_metadata_props.
Variable isspace : ascii → bool.

Lemma occurs_lstrip c s : occurs c (lstrip isspace s) → occurs c s.
Proof.
  induction s as [|a s IH]; simpl; [done|].
  destruct (isspace a); simpl; tauto.
Qed.

Lemma occurs_rstrip c s : occurs c (rstrip isspace s) → occurs c s.
Proof.
  induction s as [|a s IH]; simpl; [done|].
  destruct (rstrip isspace s) as [|b r] eqn:E.
  - destruct (isspace a); simpl; tauto.
  - simpl in *. tauto.
Qed.

Lemma occurs_strip c s : occurs c (strip isspace s) → occurs c s.
Proof. intros ?%occurs_rstrip%occurs_lstrip. done. Qed.

Lemma lstrip_head s c r : lstrip isspace s = String c r → isspace c = false.
Proof.
  induction s as [|a s IH]; simpl; [done|].
  destruct (isspace a) eqn:E; [done|]. by intros [= <- _].
Qed.

Lemma rstrip_head s c r : rstrip isspace s = String c r → ∃ r', s = String c r'.
Proof.
  destruct s as [|a s]; simpl; [done|].
  destruct (rstrip isspace s) as [|b r'].
  - destruct (isspace a); [done|]. intros [= <- _]. eauto.
  - intros [= <- _]. eauto.
Qed.

Lemma strip_head s c r : strip isspace s = String c r → isspace c = false.
Proof.
  unfold strip. intros [r' Hr']%rstrip_head. by eapply lstrip_head.
Qed.

Lemma rstrip_last s : ∀ v c,
  rstrip isspace s = v +:+ String c EmptyString → isspace c = false.
Proof.
  induction s as [|a s IH]; intros v c; simpl.
  - by destruct v.
  - destruct (rstrip isspace s) as [|b r] eqn:E.
    + destruct (isspace a) eqn:Ea; [by destruct v|].
      destruct v as [|x [|y v]]; simpl; [by intros [= <-]|done|done].
    + destruct v as [|x v]; simpl; [done|].
      intros [= _ Hv]. by apply (IH v c).
Qed.

Lemma strip_last s v c :
  strip isspace s = v +:+ String c EmptyString → isspace c = false.
Proof. apply rstrip_last. Qed.

Lemma split_nonempty sep s : split sep s ≠ [].
Proof.
  destruct s as [|c r]; simpl; [done|].
  destruct (decide (c = sep)); [done|]. by destruct (split sep r).
Qed.

Lemma split_no_sep sep s piece : piece ∈ split sep s → ¬ occurs sep piece.
Proof.
  revert piece. induction s as [|c r IH]; intros piece; simpl.
  - intros ->%list_elem_of_singleton. simpl. tauto.
  - destruct (decide (c = sep)) as [->|Hne].
    + intros [->|Hin]%elem_of_cons; [simpl; tauto|by apply IH].
    + destruct (split sep r) as [|p ps]; simpl in *.
      * intros ->%list_elem_of_singleton [?|[]]. done.
      * intros [->|Hin]%elem_of_cons.
        -- intros [?|Hp]; [done|]. apply (IH p); [left|done].
        -- apply IH. by right.
Qed.

Lemma split_app sep a b :
  split sep (a +:+ String sep b) = (split sep a ++ split sep b)%list.
Proof.
  induction a as [|c a IH]; simpl.
  - by rewrite decide_True.
  - destruct (decide (c = sep)); [by rewrite IH|].
    rewrite IH. pose proof (split_nonempty sep a).
    by destruct (split sep a).
Qed.

Lemma partition_spec sep s head found tail :
  partition sep s = (head, found, tail) →
  s = head +:+ found +:+ tail
  ∧ ¬ occurs sep head
  ∧ (found = EmptyString → tail = EmptyString).
Proof.
  revert head found tail. induction s as [|c r IH]; intros head found tail; simpl.
  - intros [= <- <- <-]. simpl. tauto.
  - destruct (decide (c = sep)) as [->|Hne].
    + intros [= <- <- <-]. simpl. repeat split; (done || tauto).
    + destruct (partition sep r) as [[h f] t]. intros [= <- <- <-].
      destruct (IH h f t eq_refl) as (-> & Hh & Ht).
      split; [done|]. split; [|done]. simpl. tauto.
Qed.

(** The step of the loop that fills the dictionary. *)
Lemma update_metadata_step_entries (items : list string) :
  ∀ (acc : gmap string string) key value,
    foldl (λ metadata item,
             if decide (item = EmptyString) then metadata
             else let '(key, _, value) := partition "=" item in <[key := value]> metadata)
          acc items !! key = Some value →
    acc !! key = Some value
    ∨ ∃ item found, item ∈ items ∧ item ≠ EmptyString
        ∧ partition "=" item = (key, found, value).
Proof.
  induction items as [|item items IH]; intros acc key value; simpl; [auto|].
  intros [Hacc|(item' & found & Hin & Hne & Hp)]%IH.
  - destruct (decide (item = EmptyString)) as [|Hne]; [auto|].
    destruct (partition "=" item) as [[k f] v] eqn:Hp.
    apply lookup_insert_Some in Hacc as [[<- <-]|[_ Hacc]]; [|auto].
    right. exists item, f. split; [left|done].
  - right. exists item', found. split; [by right|done].
Qed.

(** X14.  No key and no value of the dictionary built from [--update-metadata]
    contains a comma, no key contains an equals sign, no key starts with
    white space and no value ends with white space. *)
Theorem update_metadata_entries (update_metadata key value : string) :
  update_metadata_of isspace update_metadata !! key = Some value →
  ¬ occurs "," key ∧ ¬ occurs "," value ∧ ¬ occurs "=" key
  ∧ (∀ c r, key = String c r → isspace c = false)
  ∧ (∀ v c, value = v +:+ String c EmptyString → isspace c = false).
Proof.
  unfold update_metadata_of.
  intros [Hempty|(item & found & Hin & Hne & Hp)]%update_metadata_step_entries;
    [by rewrite lookup_empty in Hempty|].
  apply list_elem_of_fmap in Hin as (piece & Hitem & Hpiece).
  apply split_no_sep in Hpiece.
  assert (¬ occurs "," item) as Hcomma.
  { rewrite Hitem. intros ?%occurs_strip. done. }
  destruct (partition_spec _ _ _ _ _ Hp) as (Hcat & Hkey & _).
  rewrite Hcat, !occurs_app in Hcomma.
  split; [tauto|]. split; [tauto|]. split; [done|]. split.
  - intros c r ->. rewrite Hitem in Hcat. simpl in Hcat.
    by apply strip_head in Hcat.
  - intros v c ->. rewrite Hitem in Hcat.
    apply (strip_last piece (key +:+ found +:+ v) c).
    rewrite Hcat. by rewrite !string_app_assoc.
Qed.

Lemma update_metadata_step_union (items : list string) :
  ∀ acc : gmap string string,
    foldl (λ metadata item,
             if decide (item = EmptyString) then metadata
             else let '(key, _, value) := partition "=" item in <[key := value]> metadata)
          acc items
    = foldl (λ metadata item,
               if decide (item = EmptyString) then metadata
               else let '(key, _, value) := partition "=" item in <[key := value]> metadata)
            ∅ items ∪ acc.
Proof.
  induction items as [|item items IH]; intros acc; simpl.
  - by rewrite (left_id_L ∅ (∪)).
  - destruct (decide (item = EmptyString)); [apply IH|].
    destruct (partition "=" item) as [[k f] v].
    rewrite IH, (IH (<[k:=v]> ∅)).
    rewrite <- (assoc_L (∪)). f_equal.
    by rewrite insert_empty, <- insert_union_singleton_l.
Qed.

(** X15.  Giving two lists of [KEY=VALUE] as one, joined by a comma, gives the
    entries of both; for a key that both lists set, the value of the
    second list is kept. *)
Theorem update_metadata_join (a b : string) :
  update_metadata_of isspace (a +:+ "," +:+ b)
  = update_metadata_of isspace b ∪ update_metadata_of isspace a.
Proof.
  unfold update_metadata_of.
  change ("," +:+ b) with (String ","%char b).
  rewrite split_app, fmap_app, foldl_app. apply update_metadata_step_union.
Qed.
End update_metadata_props.

(** ** Common metadata *)

Section metadata_props.
Context {Value : Type}.
Variable _common_metadata : list (gmap string Value) → gmap string Value.

Lemma pop_keys_lookup (keys : list string) :
  ∀ (metadatas : list (gmap string Value)) i m key,
    metadatas !! i = Some m →
    ∃ m', foldl (λ metadatas key, pop_all key metadatas) metadatas keys !! i = Some m'
      ∧ m' !! key = if decide (key ∈ keys) then None else m !! key.
Proof.
  induction keys as [|k keys IH]; intros metadatas i m key Hi; simpl.
  - by exists m.
  - destruct (IH (pop_all k metadatas) i (delete k m) key) as (m' & Hm' & Hkey).
    { unfold pop_all. by rewrite list_lookup_fmap, Hi. }
    exists m'. split; [done|]. rewrite Hkey.
    destruct (decide (key = k)) as [->|Hne].
    + rewrite lookup_delete_eq. rewrite (decide_True (P := k ∈ k :: keys)) by left.
      by destruct (decide (k ∈ keys)).
    + rewrite lookup_delete_ne by done.
      destruct (decide (key ∈ keys)) as [Hin|Hnin].
      * rewrite decide_True; [done|by right].
      * rewrite decide_False; [done|]. by intros [?|?]%elem_of_cons.
Qed.

Lemma pop_keys_length (keys : list string) :
  ∀ metadatas : list (gmap string Value),
    length (foldl (λ metadatas key, pop_all key metadatas) metadatas keys)
    = length metadatas.
Proof.
  induction keys as [|k keys IH]; intros metadatas; simpl; [done|].
  rewrite IH. apply length_fmap.
Qed.

(** X13.  With two mappings or more, [_display_common_metadata] leaves in each
    mapping exactly its entries whose key is neither ["name"] nor a key of
    the common metadata (computed once ["name"] is removed), with their
    values; it shows the common metadata, then an empty line, when there
    is some, and nothing otherwise. *)
Theorem display_common_metadata_remaining (metadatas : list (gmap string Value)) :
  (2 ≤ length metadatas)%nat →
  let common := _common_metadata (delete "name" <$> metadatas) in
  let run := _display_common_metadata _common_metadata metadatas in
  length run.1 = length metadatas
  ∧ (∀ i m, metadatas !! i = Some m →
       ∃ m', run.1 !! i = Some m'
         ∧ ∀ key, m' !! key
                  = if decide (key = "name" ∨ key ∈ dom common) then None
                    else m !! key)
  ∧ (common = ∅ → run.2 = [])
  ∧ (common ≠ ∅ → run.2 = [DisplayMetadata common "Common metadata:"; PrintEmptyLine]).
Proof.
  intros Hlen common run. unfold run, _display_common_metadata.
  rewrite decide_False by lia. unfold pop_all at 2 3 4. fold common. simpl.
  split; [by rewrite pop_keys_length, length_fmap|]. split; [|split].
  - intros i m Hi.
    assert ((delete "name" <$> metadatas) !! i = Some (delete "name" m)) as Hi'
      by (by rewrite list_lookup_fmap, Hi).
    destruct (pop_keys_lookup (elements (dom common)) _ i _ "name" Hi') as (m' & Hm' & _).
    exists m'. split; [done|]. intros key.
    destruct (pop_keys_lookup (elements (dom common)) _ i _ key Hi') as (m'' & Hm'' & Hkey).
    assert (m'' = m') as -> by congruence. rewrite Hkey.
    destruct (decide (key = "name")) as [->|Hne].
    + rewrite lookup_delete_eq. rewrite (decide_True (P := _ ∨ _)) by auto.
      by destruct (decide _).
    + rewrite lookup_delete_ne by done.
      destruct (decide (key ∈ elements (dom common))) as [Hin|Hnin].
      * rewrite decide_True; [done|]. right. by apply elem_of_elements.
      * rewrite decide_False; [done|]. intros [?|?%elem_of_elements]; done.
  - intros Hempty. unfold pop_all. fold common. by rewrite decide_True.
  - intros Hne. unfold pop_all. fold common. by rewrite decide_False.
Qed.
End metadata_props.

(** * Properties of [perf/_system.py] *)

Section system_props.
Import system.
Context {World : Type}.
Variable env : os World.

Lemma run_sbind {A B} (m : SM (World := World) A) (k : A → SM B) st :
  sbind m k st
  = match m st with
    | (st', inl e) => (st', inl e)
    | (st', inr a) => k a st'
    end.
Proof. reflexivity. Qed.

(** ** The Turbo Boost bit of the register *)

Lemma turbo_mask_bits (n : Z) :
  (0 ≤ n)%Z →
  Z.testbit (Z.shiftl 1 MSR_IA32_MISC_ENABLE_TURBO_DISABLE_BIT) n
  = bool_decide (n = MSR_IA32_MISC_ENABLE_TURBO_DISABLE_BIT).
Proof.
  intros Hn. rewrite Z.shiftl_1_l, Z.pow2_bits_eqb by done.
  unfold MSR_IA32_MISC_ENABLE_TURBO_DISABLE_BIT.
  case_bool_decide; [by apply Z.eqb_eq|apply Z.eqb_neq; congruence].
Qed.

Lemma new_value_bits (enabled : bool) (value n : Z) :
  (0 ≤ n)%Z →
  Z.testbit (if negb enabled
             then Z.lor value (Z.shiftl 1 MSR_IA32_MISC_ENABLE_TURBO_DISABLE_BIT)
             else Z.land value (Z.lnot (Z.shiftl 1 MSR_IA32_MISC_ENABLE_TURBO_DISABLE_BIT)))
            n
  = if decide (n = MSR_IA32_MISC_ENABLE_TURBO_DISABLE_BIT) then negb enabled
    else Z.testbit value n.
Proof.
  intros Hn. destruct enabled; simpl.
  - rewrite Z.land_spec, Z.lnot_spec, turbo_mask_bits by done.
    case_bool_decide; [rewrite decide_True by done|rewrite decide_False by done].
    + apply andb_false_r.
    + apply andb_true_r.
  - rewrite Z.lor_spec, turbo_mask_bits by done.
    case_bool_decide; [rewrite decide_True by done|rewrite decide_False by done].
    + apply orb_true_r.
    + apply orb_false_r.
Qed.

Lemma new_value_same (enabled : bool) (value : Z) :
  Z.testbit value MSR_IA32_MISC_ENABLE_TURBO_DISABLE_BIT = negb enabled →
  (if negb enabled
   then Z.lor value (Z.shiftl 1 MSR_IA32_MISC_ENABLE_TURBO_DISABLE_BIT)
   else Z.land value (Z.lnot (Z.shiftl 1 MSR_IA32_MISC_ENABLE_TURBO_DISABLE_BIT)))
  = value.
Proof.
  intros Hbit. apply Z.bits_inj'. intros n Hn. rewrite new_value_bits by done.
  destruct (decide _) as [->|]; [by rewrite Hbit|done].
Qed.

Lemma new_value_differs (enabled : bool) (value : Z) :
  Z.testbit value MSR_IA32_MISC_ENABLE_TURBO_DISABLE_BIT = enabled →
  (if negb enabled
   then Z.lor value (Z.shiftl 1 MSR_IA32_MISC_ENABLE_TURBO_DISABLE_BIT)
   else Z.land value (Z.lnot (Z.shiftl 1 MSR_IA32_MISC_ENABLE_TURBO_DISABLE_BIT)))
  ≠ value.
Proof.
  intros Hbit Heq.
  pose proof (new_value_bits enabled value MSR_IA32_MISC_ENABLE_TURBO_DISABLE_BIT) as Hb.
  rewrite Heq, Hbit, decide_True in Hb by done.
  specialize (Hb ltac:(done)). by destruct enabled.
Qed.

(** X16.  When the register read for a CPU already has the Turbo Boost disable bit
    in the state asked for (set to disable, clear to enable), [write_cpu]
    stops after the read: it runs no [wrmsr] and reports nothing. *)
Theorem write_cpu_already (cpu : Z) (enabled : bool) (value : Z)
    (st st1 : system_state World) :
  read_msr env cpu MSR_IA32_MISC_ENABLE None st = (st1, inr (Some value)) →
  Z.testbit value MSR_IA32_MISC_ENABLE_TURBO_DISABLE_BIT = negb enabled →
  write_cpu env cpu enabled st = (st1, inr tt).
Proof.
  intros Hread Hbit. unfold write_cpu. rewrite run_sbind, Hread.
  rewrite (new_value_same enabled value Hbit).
  by rewrite decide_False by (intros Hne; by apply Hne).
Qed.

(** X17.  When bit 38 of the register read for a CPU is not in the state asked
    for, [write_cpu] writes the register once, with the value read in which
    bit 38 alone is changed, to set for a disable and to clear for an
    enable, and tells of it when the write succeeded. *)
Theorem write_cpu_changes (cpu : Z) (enabled : bool) (value : Z)
    (st st1 : system_state World) :
  read_msr env cpu MSR_IA32_MISC_ENABLE None st = (st1, inr (Some value)) →
  Z.testbit value MSR_IA32_MISC_ENABLE_TURBO_DISABLE_BIT = enabled →
  ∃ new_value,
    (∀ n, (0 ≤ n)%Z →
       Z.testbit new_value n = if decide (n = 38%Z) then negb enabled
                               else Z.testbit value n)
    ∧ write_cpu env cpu enabled st
      = sbind (write_msr env cpu MSR_IA32_MISC_ENABLE new_value)
          (λ written : bool,
             if written then
               info MSR_name
                 ("Turbo Boost " +:+ (if enabled then "enabled" else "disabled")
                  +:+ " on CPU " +:+ fmt_int env cpu +:+ ": MSR "
                  +:+ fmt_hex env MSR_IA32_MISC_ENABLE +:+ " set to "
                  +:+ fmt_hex env new_value)
             else sret tt) st1.
Proof.
  intros Hread Hbit. eexists. split; [apply (new_value_bits enabled value)|].
  unfold write_cpu. rewrite run_sbind, Hread.
  by rewrite decide_True by (by apply new_value_differs).
Qed.

(** X18.  When the [rdmsr] tool is not installed, [write_cpu] raises nothing and
    runs no other command: it records one error, with exit code 127. *)
Theorem write_cpu_without_rdmsr (cpu : Z) (enabled : bool)
    (st : system_state World) (w : World) :
  Popen_communicate env
    ["rdmsr"; "-p" +:+ fmt_int env cpu; "-x"; fmt_hex env MSR_IA32_MISC_ENABLE]
    (world st) = (w, inl ENOENT) →
  write_cpu env cpu enabled st
  = ({| world := w;
        errors :=
          errors st
          ++ [MSR_name +:+ ": "
              +:+ (let msg := "Failed to read MSR " +:+ fmt_hex env MSR_IA32_MISC_ENABLE
                              +:+ " of CPU " +:+ fmt_int env cpu +:+ " (exit code "
                              +:+ fmt_int env 127 +:+ "). Is rdmsr tool installed?" in
                   if bool_decide (getuid env w = 0%Z) then msg
                   else msg +:+ " Retry as root?")];
        has_messages := has_messages st; stdout := stdout st;
        cpu_states := cpu_states st; pstate_enabled := pstate_enabled st |},
     inr tt).
Proof.
  intros Hpopen. unfold write_cpu, read_msr, get_output, is_root, error, System_error.
  rewrite !run_sbind. unfold on_world at 1. simpl. rewrite Hpopen.
  rewrite decide_True by done. simpl. reflexivity.
Qed.
End system_props.

Section pstate_props.
Import system.
Context {World : Type}.
Variable env : os World.

(** ** The [no_turbo] file of the intel_pstate driver *)

(** X19.  When the state of Turbo Boost is not known yet and the [no_turbo] file
    already holds the value asked for (["0"] to enable, ["1"] to disable),
    [write] reads the file, notes the state, and writes nothing. *)
Theorem pstate_write_already (enabled : bool) (st : system_state World) (w : World) :
  pstate_enabled st = None →
  read_first_line env (no_turbo_path env) (world st)
  = (w, if enabled then "0" else "1") →
  pstate_write env enabled st
  = ({| world := w; errors := errors st; has_messages := has_messages st;
        stdout := stdout st; cpu_states := cpu_states st;
        pstate_enabled := Some enabled |}, inr tt).
Proof.
  intros Hnone Hread. unfold pstate_write. rewrite run_sbind.
  unfold get_pstate_enabled at 1. rewrite Hnone.
  rewrite run_sbind. unfold pstate_read. rewrite run_sbind.
  unfold on_world. rewrite Hread.
  destruct enabled; reflexivity.
Qed.

Lemma pstate_write_file_done (enabled : bool) (st : system_state World) (w1 : World) :
  write_file env (no_turbo_path env) (if enabled then "0" else "1") (world st)
  = (w1, None) →
  ∃ st1, pstate_write_file env enabled st = (st1, inr tt)
    ∧ world st1 = w1 ∧ errors st1 = errors st.
Proof.
  intros Hwrite. unfold pstate_write_file. rewrite run_sbind.
  unfold on_world. rewrite Hwrite.
  destruct enabled; eexists; (split; [reflexivity|]); done.
Qed.

(** X20.  What [write] puts in the [no_turbo] file is read back by [read] as the
    state that was asked for: after a write that succeeds, on a file that
    then reads as it was written, [read] notes that state. *)
Theorem pstate_write_then_read (enabled : bool) (st : system_state World)
    (w1 w2 : World) :
  write_file env (no_turbo_path env) (if enabled then "0" else "1") (world st)
  = (w1, None) →
  read_first_line env (no_turbo_path env) w1 = (w2, if enabled then "0" else "1") →
  let st' := (sbind (pstate_write_file env enabled) (λ _, pstate_read env) st).1 in
  pstate_enabled st' = Some enabled ∧ errors st' = errors st ∧ world st' = w2.
Proof.
  intros Hwrite Hread.
  destruct (pstate_write_file_done enabled st w1 Hwrite) as (st1 & Hrun & Hw & He).
  rewrite run_sbind, Hrun. unfold pstate_read. rewrite run_sbind.
  unfold on_world. rewrite Hw, Hread, <- He.
  destruct enabled; repeat split; reflexivity.
Qed.
End pstate_props.

Section main_props.
Import system.
Context {World : Type}.

(** ** [System.main] *)

Lemma for_each_nothing {A} (l : list A) (st : system_state World) :
  for_each l (λ _, sret tt) st = (st, inr tt).
Proof.
  induction l as [|x l IH]; [done|]. simpl. by rewrite run_sbind.
Qed.

Lemma for_each_Forall2 {A B} (f : A → SM unit) (g : B → SM unit) l k :
  Forall2 (λ x y, f x = g y) l k →
  for_each (World := World) l f = for_each k g.
Proof. induction 1 as [|x y l k Hxy _ IH]; [done|]. simpl. by rewrite Hxy, IH. Qed.

(** X21.  For an action other than [tune] and [reset], [main] calls no [tune] and
    no [reset]: what it does depends on the [read] and [show] of the
    operations alone. *)
Theorem main_reads_only (operations operations' : list (Operation (World := World)))
    (action : string) (st : system_state World) :
  action ≠ "tune" → action ≠ "reset" →
  Forall2 (λ o o', op_read o = op_read o' ∧ op_show o = op_show o')
          operations operations' →
  main operations action st = main operations' action st.
Proof.
  intros Htune Hreset Hops. unfold main.
  rewrite !bool_decide_eq_false_2 by done.
  rewrite !run_sbind, !for_each_nothing.
  rewrite (for_each_Forall2 op_read op_read operations operations')
    by (eapply Forall2_impl; [exact Hops|]; by intros ?? [? ?]).
  rewrite (for_each_Forall2 op_show op_show operations operations')
    by (eapply Forall2_impl; [exact Hops|]; by intros ?? [? ?]).
  done.
Qed.

Lemma print_errors (errs : list string) (st : system_state World) :
  for_each errs (λ msg, print ("ERROR: " +:+ msg)) st
  = ({| world := world st; errors := errors st; has_messages := has_messages st;
        stdout := (stdout st ++ ((λ msg, "ERROR: " +:+ msg) <$> errs))%list;
        cpu_states := cpu_states st; pstate_enabled := pstate_enabled st |}, inr tt).
Proof.
  revert st. induction errs as [|msg errs IH]; intros st; simpl.
  - rewrite app_nil_r. by destruct st.
  - rewrite run_sbind. unfold print at 1. rewrite IH. simpl.
    by rewrite <- app_assoc.
Qed.

(** X22.  When [main] returns and errors were recorded, what it printed ends with
    an empty line followed by every recorded error, in the order of
    recording, each after ["ERROR: "]. *)
Theorem main_reports_errors (operations : list (Operation (World := World)))
    (action : string) (st st' : system_state World) :
  main operations action st = (st', inr tt) →
  errors st' ≠ [] →
  ∃ printed,
    stdout st'
    = (printed ++ EmptyString :: ((λ msg, "ERROR: " +:+ msg) <$> errors st'))%list.
Proof.
  unfold main. rewrite run_sbind.
  destruct (for_each operations _ st) as [st1 [e|[]]]; [done|].
  rewrite run_sbind. destruct (for_each operations op_read st1) as [st2 [e|[]]]; [done|].
  rewrite run_sbind.
  destruct (sbind get_has_messages _ st2) as [st3 [e|[]]]; [done|].
  rewrite run_sbind. destruct (for_each operations op_show st3) as [st4 [e|[]]]; [done|].
  rewrite run_sbind. unfold get_errors.
  destruct (errors st4) as [|msg errs] eqn:Herrs.
  - intros [= <-]. by rewrite Herrs.
  - rewrite run_sbind. unfold print at 1. rewrite print_errors. simpl.
    intros [= <-] _. simpl. rewrite Herrs. exists (stdout st4).
    by rewrite <- app_assoc.
Qed.
End main_props.

(** * The further properties on concrete inputs *)

Lemma iter_is_last_witness :
  di_is_last single_item_ex = true
  ↔ 1 = length (__iter__ get_benchmark_name_ex single_ex)
    ∧ ∃ suite, last (suites single_ex) = Some suite ∧ get_benchmarks suite ≠ [].
Proof.
  apply (iter_is_last get_benchmark_name_ex single_ex 0 single_item_ex).
  vm_compute. reflexivity.
Defined.

Lemma iter_suites_labels_witness :
  NoDup (is_filename <$> iter_suites {| suites := labels_ex |})
  ∧ iter_suites {| suites := labels_ex |} !! 1
    = Some {| is_filename := "y"; is_suite := mk_suite "b/y.json" [] |}.
Proof.
  destruct (iter_suites_labels {| suites := labels_ex |}) as (_ & _ & Hat & Hnodup).
  split.
  - apply Hnodup. simpl. repeat constructor; set_solver.
  - rewrite (Hat 1 (mk_suite "b/y.json" [])); [vm_compute; reflexivity|reflexivity].
Defined.

Lemma include_benchmark_present_witness :
  include_benchmark repr_ex "nbody" narrowing_ex
  = ({| st_self := {| suites := [mk_suite "a.json" [Some "nbody"];
                                 mk_suite "b.json" [Some "nbody"]] |};
        st_events := [] |}, Ok tt).
Proof.
  rewrite (include_benchmark_present repr_ex "nbody" narrowing_ex); [reflexivity|].
  repeat constructor; intros Hl; vm_compute in Hl;
    repeat (apply Forall_cons in Hl as [? Hl]); done.
Defined.

Lemma include_benchmark_idempotent_witness :
  include_benchmark repr_ex "nbody" (include_benchmark repr_ex "nbody" narrowing_ex).1
  = ((include_benchmark repr_ex "nbody" narrowing_ex).1, Ok tt).
Proof.
  apply (include_benchmark_idempotent repr_ex "nbody" narrowing_ex).
  repeat constructor; intros Hl; vm_compute in Hl;
    repeat (apply Forall_cons in Hl as [? Hl]); done.
Defined.

Lemma include_benchmark_then_group_witness :
  _group_by_name_names (st_self (include_benchmark repr_ex "nbody" narrowing_ex).1)
  = Ok {[ "nbody" ]}.
Proof.
  apply (include_benchmark_then_group repr_ex "nbody" narrowing_ex).
  - discriminate.
  - discriminate.
  - repeat constructor; intros Hl; vm_compute in Hl;
      repeat (apply Forall_cons in Hl as [? Hl]); done.
Defined.

Lemma load_benchmark_suites_all_witness :
  load_benchmark_suites load_ex ["a.json"; "b.json"] start_ex
  = ({| st_self := {| suites := [mk_suite "a.json" [Some "telco"];
                                 mk_suite "b.json" [Some "telco"]] |};
        st_events := [] |}, Ok tt).
Proof.
  apply (load_benchmark_suites_all load_ex ["a.json"; "b.json"]
           [mk_suite "a.json" [Some "telco"]; mk_suite "b.json" [Some "telco"]] start_ex).
  repeat constructor.
Defined.

(** A loader that knows one file only. *)
Lemma load_benchmark_suites_stops_witness :
  load_benchmark_suites
    (λ f, if decide (f = "a.json") then load_ex f else Raise (LoadError f))
    ["a.json"; "b.json"; "c.json"] start_ex
  = ({| st_self := {| suites := [mk_suite "a.json" [Some "telco"]] |};
        st_events := [] |}, Raise (LoadError "b.json")).
Proof.
  apply (load_benchmark_suites_stops
           (λ f, if decide (f = "a.json") then load_ex f else Raise (LoadError f))
           ["a.json"] ["c.json"] "b.json" [mk_suite "a.json" [Some "telco"]]
           (LoadError "b.json") start_ex).
  - repeat constructor.
  - reflexivity.
Defined.

Lemma load_benchmarks_nsuite_witness :
  get_nsuite (st_self (load_benchmarks load_ex repr_ex compare_args_ex start_ex).1) = 1.
Proof.
  apply (load_benchmarks_nsuite load_ex repr_ex compare_args_ex start_ex
           (load_benchmarks load_ex repr_ex compare_args_ex start_ex).1).
  reflexivity.
Defined.

Lemma cmd_compare_few_files_witness :
  (cmd_compare load_ex repr_ex compare_args_ex start_ex).2 ≠ Ok tt.
Proof.
  apply (cmd_compare_few_files load_ex repr_ex compare_args_ex start_ex).
  simpl. lia.
Defined.

Lemma no_common_name_witness :
  group_by_name {| suites := [mk_suite "a.json" [Some "telco"];
                              mk_suite "b.json" [Some "nbody"]] |} = Ok [].
Proof.
  apply (no_common_name {| suites := [mk_suite "a.json" [Some "telco"];
                                      mk_suite "b.json" [Some "nbody"]] |}).
  vm_compute. reflexivity.
Defined.

Lemma update_metadata_entries_witness :
  ¬ occurs "," " x86" ∧ ¬ occurs "=" "cpu ".
Proof.
  destruct (update_metadata_entries isspace_ex
              "os=linux, cpu = x86 ,,os=bsd,flag" "cpu " " x86")
    as (_ & Hvalue & Hkey & _).
  - vm_compute. reflexivity.
  - split; [exact Hvalue|exact Hkey].
Defined.

Lemma display_common_metadata_remaining_witness :
  length (_display_common_metadata common_metadata_ex metadatas_ex).1 = 2.
Proof.
  apply (display_common_metadata_remaining common_metadata_ex metadatas_ex).
  simpl. lia.
Defined.

Lemma write_cpu_already_witness :
  system.write_cpu env_ex 0 true (system_ex "0") = (system_ex "0", inr tt).
Proof.
  apply (write_cpu_already env_ex 0 true 0 (system_ex "0") (system_ex "0")).
  - reflexivity.
  - reflexivity.
Defined.

Lemma write_cpu_changes_witness :
  ∃ new_value, Z.testbit new_value 38 = true ∧ Z.testbit new_value 0 = false.
Proof.
  destruct (write_cpu_changes env_ex 0 false 0 (system_ex "0") (system_ex "0"))
    as (new_value & Hbits & _).
  - reflexivity.
  - reflexivity.
  - exists new_value. split; [apply (Hbits 38%Z)|apply (Hbits 0%Z)]; lia.
Defined.

Lemma write_cpu_without_rdmsr_witness :
  system.errors (system.write_cpu env_no_rdmsr_ex 0 false (system_ex "0")).1
  = ["Turbo Boost (MSR): Failed to read MSR 0x416 of CPU 0 (exit code 127). Is rdmsr tool installed?"].
Proof.
  rewrite (write_cpu_without_rdmsr env_no_rdmsr_ex 0 false (system_ex "0") (0%Z, "0"));
    reflexivity.
Defined.

Lemma pstate_write_already_witness :
  system.pstate_enabled (system.pstate_write env_ex false (system_ex "1")).1 = Some false.
Proof.
  rewrite (pstate_write_already env_ex false (system_ex "1") (0%Z, "1")); reflexivity.
Defined.

Lemma pstate_write_then_read_witness :
  system.pstate_enabled
    (system.sbind (system.pstate_write_file env_ex false)
       (λ _, system.pstate_read env_ex) (system_ex "0")).1
  = Some false.
Proof.
  apply (pstate_write_then_read env_ex false (system_ex "0") (0%Z, "1") (0%Z, "1"));
    reflexivity.
Defined.

Lemma main_reads_only_witness :
  system.main [pstate_op_ex] "show" (system_ex "1")
  = system.main [pstate_op_idle_ex] "show" (system_ex "1").
Proof.
  apply (main_reads_only [pstate_op_ex] [pstate_op_idle_ex] "show" (system_ex "1")).
  - discriminate.
  - discriminate.
  - repeat constructor.
Defined.

Lemma main_reports_errors_witness :
  ∃ printed,
    system.stdout (system.main [pstate_op_ex] "show" (system_ex "?")).1
    = (printed ++ [EmptyString;
         "ERROR: Turbo Boost (intel_pstate driver): Invalid no_turbo value: ?"])%list.
Proof.
  destruct (main_reports_errors [pstate_op_ex] "show" (system_ex "?")
              (system.main [pstate_op_ex] "show" (system_ex "?")).1)
    as [printed Hprinted].
  - reflexivity.
  - discriminate.
  - exists printed. exact Hprinted.
Defined.
